(** * astrbot_plugin_nickname: the nickname store and the group-message hook

    Shallow embedding of [main.py].  Python strings are sequences of Unicode
    code points; records of [members.json] are the dictionaries the plugin
    keeps in [self._members]; the handlers are functions from the plugin
    state and the event to the new state and what the handler yields. *)

From Stdlib Require Import String Ascii.
From Stdlib Require Import List ZArith NArith Bool Lia Sorted Permutation.
Import ListNotations.

Set Implicit Arguments.

(** ** Python strings *)

Module PyStr.

(** A [str] is its sequence of code points. *)
Definition pystr := list N.

(** An ASCII literal as a [str]. *)
Fixpoint py (s : string) : pystr :=
  match s with
  | EmptyString => []
  | String c s' => N_of_ascii c :: py s'
  end.

Arguments py s%_string.

Definition eqb (a b : pystr) : bool :=
  if list_eq_dec N.eq_dec a b then true else false.

(** Truthiness of a [str]: [if s] holds for the non-empty ones. *)
Definition truthy (s : pystr) : bool :=
  match s with [] => false | _ :: _ => true end.

(** [str.isspace] on one code point (the table of [_PyUnicode_IsWhitespace]). *)
Definition isspace (c : N) : bool :=
  ((9 <=? c) && (c <=? 13) || (28 <=? c) && (c <=? 32)
   || (c =? 133) || (c =? 160) || (c =? 5760)
   || (8192 <=? c) && (c <=? 8202)
   || (c =? 8232) || (c =? 8233) || (c =? 8239) || (c =? 8287)
   || (c =? 12288))%N.

Fixpoint lstrip (s : pystr) : pystr :=
  match s with
  | [] => []
  | c :: s' => if isspace c then lstrip s' else s
  end.

Definition rstrip (s : pystr) : pystr := rev (lstrip (rev s)).

(** [s.strip()] *)
Definition strip (s : pystr) : pystr := rstrip (lstrip s).

(** [s.startswith(p)] *)
Fixpoint startswith (p s : pystr) : bool :=
  match p, s with
  | [], _ => true
  | _ :: _, [] => false
  | a :: p', b :: s' => (a =? b)%N && startswith p' s'
  end.

(** [s.find(sub)] scanning from offset [i]: the least index at which [sub]
    starts, or -1. *)
Fixpoint find_from (i : Z) (s sub : pystr) : Z :=
  match s with
  | [] => if startswith sub [] then i else (-1)%Z
  | _ :: s' => if startswith sub s then i else find_from (i + 1) s' sub
  end.

Definition find (s sub : pystr) : Z := find_from 0 s sub.

(** [sub in s] *)
Fixpoint contains (sub s : pystr) : bool :=
  match s with
  | [] => startswith sub []
  | _ :: s' => startswith sub s || contains sub s'
  end.

(** [str.lower] on strings whose cased characters are all ASCII: [A-Z] go to
    [a-z], every other code point is kept. *)
Definition lower_ascii_char (c : N) : N :=
  if ((65 <=? c) && (c <=? 90))%N then (c + 32)%N else c.

Definition lower_ascii (s : pystr) : pystr := map lower_ascii_char s.

End PyStr.
Import PyStr.

(** ** The inline mention markup [_AT_CQ = re.compile(r"\[CQ:at,[^\]]+\]")] *)

Module AtCQ.

Definition rbracket : N := 93.

(** Offset of the first [']'] in [s]. *)
Fixpoint index_rbracket (s : pystr) : option nat :=
  match s with
  | [] => None
  | c :: s' => if (c =? rbracket)%N then Some 0
               else option_map S (index_rbracket s')
  end.

(** Length of the match of the pattern at the head of [s], if there is one:
    the literal ["[CQ:at,"], one or more characters other than [']'], and the
    first [']'] after them. *)
Definition match_len (s : pystr) : option nat :=
  if startswith (py "[CQ:at,") s then
    match index_rbracket (skipn 7 s) with
    | Some (S k) => Some (7 + S k + 1)
    | _ => None
    end
  else None.

(** [_AT_CQ.sub("", s)]: the leftmost non-overlapping matches are dropped;
    [skip] counts the characters of the current match still to drop. *)
Fixpoint sub_loop (skip : nat) (s : pystr) : pystr :=
  match s with
  | [] => []
  | c :: s' =>
      match skip with
      | S k => sub_loop k s'
      | O => match match_len s with
             | Some (S n) => sub_loop n s'
             | _ => c :: sub_loop 0 s'
             end
      end
  end.

Definition sub_empty (s : pystr) : pystr := sub_loop 0 s.

End AtCQ.

(** ** Data model *)

(** One dictionary of [members.json].  A field is [None] when the key is
    missing, which is what [rec.get(key)] then gives. *)
Record MemberRecord := mkRecord {
  nickname : option (list pystr);
  sid : option pystr;
  group_id : option pystr
}.

(** [rec.get("nickname", [])] *)
Definition get_nickname (rec : MemberRecord) : list pystr :=
  match nickname rec with Some l => l | None => [] end.

(** [rec.get(key) == s] and [rec.get(key) != s] for a string [s]. *)
Definition field_eqb (f : option pystr) (s : pystr) : bool :=
  match f with Some v => PyStr.eqb v s | None => false end.

Definition field_neqb (f : option pystr) (s : pystr) : bool :=
  negb (field_eqb f s).

(** The message components the plugin looks at. *)
Inductive Comp :=
| Plain (text : pystr)
| At (qq : pystr)
| OtherComp.

(** What the handlers read from an [AstrMessageEvent]; [get_messages] is the
    chain [message_obj.message]. *)
Record AstrMessageEvent := mkEvent {
  get_messages : list Comp;
  message_str : option pystr;
  get_group_id : option pystr
}.

(** [x or ""] *)
Definition or_empty (x : option pystr) : pystr :=
  match x with Some s => if truthy s then s else [] | None => [] end.

(** The plugin object: the in-memory list and the backing file, which is
    [None] when [members.json] is missing or does not parse. *)
Record Plugin := mkPlugin {
  _members : list MemberRecord;
  members_file : option (list MemberRecord)
}.

(** The plain-text replies of the commands. *)
Inductive Reply :=
| GroupOnly
| NeedAt
| BadNickname
| Recorded (nick sid : pystr)
| NickRemoved (nick : pystr) (touched : nat)
| MembersRemoved (removed : nat)
| NotFound.

(** What a handler yields: nothing, one result, or an uncaught exception. *)
Inductive Yield :=
| Nothing
| plain_result (r : Reply)
| chain_result (chain : list Comp)
| IndexError.

(** ** Helpers of [main.py] *)

Definition _strip_at (event : AstrMessageEvent) : pystr :=
  let parts :=
    flat_map (fun seg => match seg with Plain t => [t] | _ => [] end)
             (get_messages event) in
  match parts with
  | _ :: _ => strip (concat parts)
  | [] => let raw := or_empty (message_str event) in
          strip (AtCQ.sub_empty raw)
  end.

Definition _norm_str (s : pystr) : pystr := strip s.

Definition _load (self : Plugin) : Plugin :=
  match members_file self with
  | None => mkPlugin [] (members_file self)
  | Some data => mkPlugin data (members_file self)
  end.

Definition _save (self : Plugin) : Plugin :=
  mkPlugin (_members self) (Some (_members self)).

(** [_find_by_sid_group] returns a reference to a dictionary of
    [self._members]: its position in the list, with the dictionary. *)
Fixpoint find_by_sid_group_from (i : nat) (members : list MemberRecord)
    (s g : pystr) : option (nat * MemberRecord) :=
  match members with
  | [] => None
  | m :: rest =>
      if field_eqb (sid m) s && field_eqb (group_id m) g then Some (i, m)
      else find_by_sid_group_from (S i) rest s g
  end.

Definition _find_by_sid_group (self : Plugin) (s g : pystr)
  : option (nat * MemberRecord) :=
  find_by_sid_group_from 0 (_members self) s g.

(** [any(nick == _norm_str(x) for x in m.get("nickname", []))] *)
Definition has_nickname (nick : pystr) (m : MemberRecord) : bool :=
  existsb (fun x => PyStr.eqb nick (_norm_str x)) (get_nickname m).

(** [_find_all_by_nickname]: the references, in list order. *)
Fixpoint find_all_by_nickname_from (i : nat) (members : list MemberRecord)
    (nick : pystr) (g : option pystr) : list nat :=
  match members with
  | [] => []
  | m :: rest =>
      let skip := match g with
                  | Some gid => field_neqb (group_id m) gid
                  | None => false
                  end in
      if skip then find_all_by_nickname_from (S i) rest nick g
      else if has_nickname nick m
           then i :: find_all_by_nickname_from (S i) rest nick g
           else find_all_by_nickname_from (S i) rest nick g
  end.

Definition _find_all_by_nickname (self : Plugin) (nick : pystr)
    (g : option pystr) : list nat :=
  find_all_by_nickname_from 0 (_members self) nick g.

Fixpoint _first_at_sid_in (message : list Comp) : option pystr :=
  match message with
  | [] => None
  | At q :: _ => Some q
  | _ :: rest => _first_at_sid_in rest
  end.

Definition _first_at_sid (event : AstrMessageEvent) : option pystr :=
  _first_at_sid_in (get_messages event).

(** In-place update of the dictionary at position [i]. *)
Fixpoint update_at (i : nat) (f : MemberRecord -> MemberRecord)
    (members : list MemberRecord) : list MemberRecord :=
  match members, i with
  | [], _ => []
  | m :: rest, O => f m :: rest
  | m :: rest, S j => m :: update_at j f rest
  end.

(** ** [/member <nickname>] *)

(** [nicks = rec.setdefault("nickname", []); if all(...): nicks.append(nickname)] *)
Definition add_nickname (nick : pystr) (rec : MemberRecord) : MemberRecord :=
  let nicks := get_nickname rec in
  if forallb (fun x => negb (PyStr.eqb (_norm_str x) nick)) nicks
  then mkRecord (Some (nicks ++ [nick])) (sid rec) (group_id rec)
  else mkRecord (Some nicks) (sid rec) (group_id rec).

Definition cmd_member (self : Plugin) (event : AstrMessageEvent)
    (nick : pystr) : Plugin * Yield :=
  let self := _load self in
  let gid := or_empty (get_group_id event) in
  if negb (truthy gid) then (self, plain_result GroupOnly) else
  match _first_at_sid event with
  | None => (self, plain_result NeedAt)
  | Some s =>
      if negb (truthy s) then (self, plain_result NeedAt) else
      let nick := _norm_str nick in
      if negb (truthy nick) then (self, plain_result BadNickname) else
      let members :=
        match _find_by_sid_group self s gid with
        | None => _members self ++ [mkRecord (Some [nick]) (Some s) (Some gid)]
        | Some (i, _) => update_at i (add_nickname nick) (_members self)
        end in
      let self := _save (mkPlugin members (members_file self)) in
      (self, plain_result (Recorded nick s))
  end.

(** ** [/rm_nick <nickname>] *)

(** The body of the loop over the records found; the state is the list and
    the counter [touched]. *)
Definition rm_nick_step (nick : pystr) (st : list MemberRecord * nat)
    (i : nat) : list MemberRecord * nat :=
  let '(members, touched) := st in
  match nth_error members i with
  | None => st
  | Some rec =>
      let nicks := get_nickname rec in
      let new_nicks :=
        filter (fun x => negb (PyStr.eqb (_norm_str x) nick)) nicks in
      if negb (length new_nicks =? length nicks)%nat
      then (update_at i
              (fun r => mkRecord (Some new_nicks) (sid r) (group_id r))
              members,
            S touched)
      else st
  end.

Definition cmd_rm_nick (self : Plugin) (event : AstrMessageEvent)
    (nick : pystr) : Plugin * Yield :=
  let self := _load self in
  let gid := or_empty (get_group_id event) in
  if negb (truthy gid) then (self, plain_result GroupOnly) else
  let nick := _norm_str nick in
  let '(members, touched) :=
    fold_left (rm_nick_step nick)
              (_find_all_by_nickname self nick (Some gid))
              (_members self, 0%nat) in
  let self := mkPlugin members (members_file self) in
  match touched with
  | S _ => (_save self, plain_result (NickRemoved nick touched))
  | O => (self, plain_result NotFound)
  end.

(** ** [/rm_member <nickname>] *)

Definition cmd_rm_member (self : Plugin) (event : AstrMessageEvent)
    (nick : pystr) : Plugin * Yield :=
  let self := _load self in
  let gid := or_empty (get_group_id event) in
  if negb (truthy gid) then (self, plain_result GroupOnly) else
  let nick := _norm_str nick in
  let before := length (_members self) in
  let members :=
    filter (fun rec =>
              negb (field_eqb (group_id rec) gid
                    && existsb (fun x => PyStr.eqb (_norm_str x) nick)
                               (get_nickname rec)))
           (_members self) in
  let self := mkPlugin members (members_file self) in
  let removed := (before - length members)%nat in
  match removed with
  | S _ => (_save self, plain_result (MembersRemoved removed))
  | O => (self, plain_result NotFound)
  end.

(** ** The group-message hook *)

(** [first_pos], a [dict] from sid to index: an association list in
    insertion order.  Assigning to a key that is present keeps its place. *)
Definition dict := list (pystr * Z).

Fixpoint dict_get (d : dict) (k : pystr) : option Z :=
  match d with
  | [] => None
  | (k', v) :: d' => if PyStr.eqb k' k then Some v else dict_get d' k
  end.

Fixpoint dict_set (d : dict) (k : pystr) (v : Z) : dict :=
  match d with
  | [] => [(k, v)]
  | (k', v') :: d' =>
      if PyStr.eqb k' k then (k', v) :: d' else (k', v') :: dict_set d' k v
  end.

(** [sorted(items, key=lambda kv: kv[1])]: the sort is stable, and a stable
    sort has one result; it is computed here by insertion from the right. *)
Fixpoint insert_by_value (x : pystr * Z) (l : dict) : dict :=
  match l with
  | [] => [x]
  | y :: l' => if (snd x <=? snd y)%Z then x :: l
               else y :: insert_by_value x l'
  end.

Fixpoint sorted_by_value (l : dict) : dict :=
  match l with
  | [] => []
  | x :: l' => insert_by_value x (sorted_by_value l')
  end.

Definition triggers : list pystr :=
  [ [37117; 26469; 24247]%N; [37117; 26469; 30475]%N ].

Definition nbsp : pystr := [160%N].
Definition zwsp_newline : pystr := [8203%N; 10%N].

(** [chain[-1] = x] *)
Definition set_last (chain : list Comp) (x : Comp) : option (list Comp) :=
  match chain with
  | [] => None
  | _ :: _ => Some (removelast chain ++ [x])
  end.

(** The body of [for raw in rec.get("nickname", [])]. *)
Definition scan_nickname (msg s : pystr) (first_pos : dict) (raw : pystr)
  : dict :=
  let nick := _norm_str raw in
  if negb (truthy nick) then first_pos else
  let idx := find msg nick in
  if (idx =? -1)%Z then first_pos else
  match dict_get first_pos s with
  | None => dict_set first_pos s idx
  | Some old => if (idx <? old)%Z then dict_set first_pos s idx
                else first_pos
  end.

(** The body of [for rec in self._members] of the matching branch. *)
Definition scan_record (gid msg : pystr) (first_pos : dict)
    (rec : MemberRecord) : dict :=
  if field_neqb (group_id rec) gid then first_pos else
  match sid rec with
  | None => first_pos
  | Some s =>
      if negb (truthy s) then first_pos
      else fold_left (scan_nickname msg s) (get_nickname rec) first_pos
  end.

Definition first_pos (gid msg : pystr) (members : list MemberRecord) : dict :=
  fold_left (scan_record gid msg) members [].

Definition order_sids (fp : dict) : list pystr :=
  map fst (sorted_by_value fp).

(** The mention and separator segments appended for each sid. *)
Definition at_chain (sids : list pystr) : list Comp :=
  flat_map (fun s => [At s; Plain nbsp]) sids.

(** The loop of the broadcast branch: the chain it builds. *)
Definition broadcast_chain (gid : pystr) (members : list MemberRecord)
  : list Comp :=
  flat_map (fun rec =>
              if field_neqb (group_id rec) gid then []
              else match sid rec with
                   | None => []
                   | Some s => if negb (truthy s) then []
                               else [At s; Plain nbsp]
                   end)
           members.

Section Hook.

(** [str.lower], the full Unicode case mapping, is kept abstract. *)
Variable lower : pystr -> pystr.

Definition on_group_message (self : Plugin) (event : AstrMessageEvent)
  : Plugin * Yield :=
  let raw := _strip_at event in
  let msg := lower raw in
  if startswith (py "/") msg then (self, Nothing) else
  let self := _load self in
  let gid := or_empty (get_group_id event) in
  if negb (truthy gid) then (self, Nothing) else
  if existsb (fun trigger => contains trigger msg) triggers then
    let chain := broadcast_chain gid (_members self) in
    match chain with
    | [] => (self, Nothing)
    | _ :: _ =>
        match set_last chain (Plain (zwsp_newline ++ msg)) with
        | Some chain => (self, chain_result chain)
        | None => (self, IndexError)
        end
    end
  else
    let fp := first_pos gid msg (_members self) in
    match fp with
    | [] => (self, Nothing)
    | _ :: _ =>
        let chain := at_chain (order_sids fp) in
        match set_last chain (Plain (zwsp_newline ++ msg)) with
        | Some chain => (self, chain_result chain)
        | None => (self, IndexError)
        end
    end.

End Hook.

(** The sids a chain mentions, in order. *)
Definition mentions (chain : list Comp) : list pystr :=
  flat_map (fun seg => match seg with At q => [q] | _ => [] end) chain.

(** ** Vocabulary of the statements *)

(** The sids the broadcast branch appends mentions for. *)
Definition broadcast_sids (gid : pystr) (members : list MemberRecord)
  : list pystr :=
  flat_map (fun rec =>
              if field_neqb (group_id rec) gid then []
              else match sid rec with
                   | None => []
                   | Some s => if negb (truthy s) then [] else [s]
                   end)
           members.

(** The first-occurrence index a stored nickname contributes, if any: the
    entry is trimmed, a blank one is skipped, and [find] must succeed. *)
Definition hit (msg raw : pystr) : option Z :=
  let nick := _norm_str raw in
  if negb (truthy nick) then None
  else let idx := find msg nick in
       if (idx =? -1)%Z then None else Some idx.

Definition hits (msg : pystr) (rec : MemberRecord) : list Z :=
  flat_map (fun raw => match hit msg raw with Some i => [i] | None => [] end)
           (get_nickname rec).

(** The sid of a record of group [gid], when it is a non-empty string. *)
Definition live_sid (gid : pystr) (rec : MemberRecord) : option pystr :=
  if field_eqb (group_id rec) gid then
    match sid rec with
    | Some s => if truthy s then Some s else None
    | None => None
    end
  else None.

(** The sids of the records with at least one matching nickname, in Store
    iteration order (one entry per record). *)
Definition matched_records (gid msg : pystr) (members : list MemberRecord)
  : list pystr :=
  flat_map (fun rec => match live_sid gid rec, hits msg rec with
                       | Some s, _ :: _ => [s]
                       | _, _ => []
                       end)
           members.

(** All indices at which the nicknames of [s] occur. *)
Definition sid_hits (gid msg : pystr) (members : list MemberRecord)
    (s : pystr) : list Z :=
  flat_map (fun rec => match live_sid gid rec with
                       | Some s' => if PyStr.eqb s' s then hits msg rec else []
                       | None => []
                       end)
           members.

Fixpoint min_hit (l : list Z) : option Z :=
  match l with
  | [] => None
  | i :: l' => match min_hit l' with
               | None => Some i
               | Some j => Some (Z.min i j)
               end
  end.

(** The minimum first-occurrence index of [s] over its nicknames; -1 when
    none of them occurs. *)
Definition min_index (gid msg : pystr) (members : list MemberRecord)
    (s : pystr) : Z :=
  match min_hit (sid_hits gid msg members s) with
  | Some i => i
  | None => (-1)%Z
  end.

(** The distinct elements of a list, each at its first occurrence. *)
Definition add_new (seen : list pystr) (x : pystr) : list pystr :=
  if existsb (PyStr.eqb x) seen then seen else seen ++ [x].

Definition first_seen (l : list pystr) : list pystr :=
  fold_left add_new l [].

(** The result of the Lookup Engine: the sids to mention, from the broadcast
    branch when a trigger occurs and from the matching branch otherwise. *)
Definition lookup (gid msg : pystr) (members : list MemberRecord)
  : list pystr :=
  if existsb (fun trigger => contains trigger msg) triggers
  then broadcast_sids gid members
  else order_sids (first_pos gid msg members).

(** The output of the Message Rewriter for a non-empty list of sids. *)
Definition rewritten (sids : list pystr) (msg : pystr) : list Comp :=
  removelast (at_chain sids) ++ [Plain (zwsp_newline ++ msg)].

(** The update of [first_pos] for one occurrence of a nickname of [s] at
    [idx]: [if sid not in first_pos or idx < first_pos[sid]]. *)
Definition dict_min (d : dict) (s : pystr) (idx : Z) : dict :=
  match dict_get d s with
  | None => dict_set d s idx
  | Some old => if (idx <? old)%Z then dict_set d s idx else d
  end.

(** The smaller of two optional indices. *)
Definition omin (a b : option Z) : option Z :=
  match a, b with
  | None, _ => b
  | _, None => a
  | Some x, Some y => Some (Z.min x y)
  end.

(** A record with a non-empty sid. *)
Definition has_sid (rec : MemberRecord) : bool :=
  match sid rec with Some s => truthy s | None => false end.

(** The order of [sorted]: by the value of the item. *)
Definition value_le (a b : pystr * Z) : Prop := (snd a <= snd b)%Z.

(** What a record says apart from its nicknames. *)
Definition identity (rec : MemberRecord) : option pystr * option pystr :=
  (sid rec, group_id rec).

(** The store the plugin works on once the backing file is loaded. *)
Definition store (self : Plugin) : list MemberRecord := _members (_load self).

(** Membership of a record in group [gid]. *)
Definition in_group (gid : pystr) (rec : MemberRecord) : bool :=
  field_eqb (group_id rec) gid.

(** A record of member [s] in group [gid], as [_find_by_sid_group] tests it. *)
Definition owned (s gid : pystr) (r : MemberRecord) : bool :=
  field_eqb (sid r) s && field_eqb (group_id r) gid.

(** A nickname list without the entries that trim-equal [nick]. *)
Definition drop_nick (nick : pystr) (l : list pystr) : list pystr :=
  filter (fun x => negb (PyStr.eqb (_norm_str x) nick)) l.

(** An ASCII capital letter. *)
Definition is_upper (c : N) : bool := ((65 <=? c) && (c <=? 90))%N.

(** The list [/member] leaves in [self._members]: a new record at the end
    when [(s, gid)] has none, the first such record updated otherwise. *)
Definition upsert (members : list MemberRecord) (s gid nick : pystr)
  : list MemberRecord :=
  match find_by_sid_group_from 0 members s gid with
  | None => members ++ [mkRecord (Some [nick]) (Some s) (Some gid)]
  | Some (i, _) => update_at i (add_nickname nick) members
  end.

(** What [/rm_nick] leaves of one record. *)
Definition remove_nick (gid nick : pystr) (rec : MemberRecord)
  : MemberRecord :=
  if in_group gid rec && has_nickname nick rec
  then mkRecord (Some (filter (fun x => negb (PyStr.eqb (_norm_str x) nick))
                              (get_nickname rec)))
                (sid rec) (group_id rec)
  else rec.

(** A string that does not start with white space. *)
Definition clean_head (s : pystr) : bool :=
  match s with [] => true | c :: _ => negb (isspace c) end.

(** A record without the entries that trim to the empty string. *)
Definition without_blank (rec : MemberRecord) : MemberRecord :=
  mkRecord (option_map (filter (fun x => truthy (_norm_str x))) (nickname rec))
           (sid rec) (group_id rec).

(** The number of entries of a record that trim-equal [nick]. *)
Definition count_nick (nick : pystr) (rec : MemberRecord) : nat :=
  length (filter (fun x => PyStr.eqb (_norm_str x) nick) (get_nickname rec)).

Definition nicks_eqb (a b : list pystr) : bool :=
  if list_eq_dec (list_eq_dec N.eq_dec) a b then true else false.

(** The number of positions at which the nickname lists of two stores
    differ. *)
Definition changed_count (before after : list MemberRecord) : nat :=
  length (filter (fun p => negb (nicks_eqb (get_nickname (fst p))
                                           (get_nickname (snd p))))
                 (combine before after)).

(** A text segment, a mention segment. *)
Definition is_plain (seg : Comp) : bool :=
  match seg with Plain _ => true | _ => false end.

Definition is_at (seg : Comp) : bool :=
  match seg with At _ => true | _ => false end.

(** The test [group_id is not None and m.get("group_id") != group_id] of
    [_find_all_by_nickname], negated: the records it looks at. *)
Definition group_matches (g : option pystr) (rec : MemberRecord) : bool :=
  match g with Some gid => in_group gid rec | None => true end.

(** The records [/rm_nick] and [/rm_member] act on. *)
Definition matches_nick (gid nick : pystr) (rec : MemberRecord) : bool :=
  in_group gid rec && has_nickname nick rec.

(** At most one record per (sid, group_id). *)
Definition unique_members (members : list MemberRecord) : Prop :=
  NoDup (map identity members).

(** A stored nickname that is trimmed and not empty, and a store all of
    whose nicknames are. *)
Definition tidy (x : pystr) : Prop := _norm_str x = x /\ x <> [].

Definition tidy_members (members : list MemberRecord) : Prop :=
  Forall (fun rec => Forall tidy (get_nickname rec)) members.

(** No [']'] and no ['['] in a string. *)
Definition no_rbracket (s : pystr) : bool :=
  forallb (fun c => negb (c =? 93)%N) s.

Definition no_lbracket (s : pystr) : bool :=
  forallb (fun c => negb (c =? 91)%N) s.

(** ** Running examples *)

Module Ex.

Local Open Scope string_scope.

Definition G : pystr := py "G".
Definition G1 : pystr := py "G1".
Definition A : pystr := py "1001".
Definition B : pystr := py "1002".
Definition C : pystr := py "1003".

Definition member (nicks : list string) (s g : pystr) : MemberRecord :=
  mkRecord (Some (map py nicks)) (Some s) (Some g).

Definition text_event (text : string) (g : pystr) : AstrMessageEvent :=
  mkEvent [Plain (py text)] (Some (py text)) (Some g).

Arguments text_event text%_string g.

Definition loaded (members : list MemberRecord) : Plugin :=
  mkPlugin [] (Some members).

Definition cat_dog : list MemberRecord :=
  [member ["cat"] A G; member ["dog"] B G].

Definition upper_cat : list MemberRecord := [member ["Cat"] A G].

Definition lower_cat : list MemberRecord := [member ["cat"] A G].

End Ex.

(** * Properties *)

(** ** Strings *)

Lemma eqb_eq (a b : pystr) : PyStr.eqb a b = true <-> a = b.
Proof.
  unfold PyStr.eqb. destruct (list_eq_dec N.eq_dec a b); split; congruence.
Qed.

Lemma eqb_refl (a : pystr) : PyStr.eqb a a = true.
Proof. now apply eqb_eq. Qed.

Lemma eqb_neq (a b : pystr) : PyStr.eqb a b = false <-> a <> b.
Proof.
  unfold PyStr.eqb. destruct (list_eq_dec N.eq_dec a b); split; congruence.
Qed.

Lemma eqb_sym (a b : pystr) : PyStr.eqb a b = PyStr.eqb b a.
Proof.
  destruct (PyStr.eqb b a) eqn:E.
  - apply eqb_eq in E. subst. apply eqb_refl.
  - apply eqb_neq in E. apply eqb_neq. congruence.
Qed.

Lemma lstrip_clean (s : pystr) : clean_head (lstrip s) = true.
Proof.
  induction s as [|c s IH]; simpl; auto.
  destruct (isspace c) eqn:E; auto. simpl. now rewrite E.
Qed.

Lemma lstrip_fix (s : pystr) : clean_head s = true -> lstrip s = s.
Proof.
  destruct s as [|c s]; simpl; auto.
  destruct (isspace c); simpl; congruence.
Qed.

Lemma lstrip_snoc (l : pystr) (h : N) :
  isspace h = false -> lstrip (l ++ [h]) = lstrip l ++ [h].
Proof.
  intros Hh. induction l as [|c l IH]; simpl.
  - now rewrite Hh.
  - destruct (isspace c); auto.
Qed.

Lemma rstrip_clean (u : pystr) :
  clean_head u = true -> clean_head (rstrip u) = true.
Proof.
  unfold rstrip. destruct u as [|h u]; simpl; auto.
  intros Hh. apply negb_true_iff in Hh.
  rewrite lstrip_snoc by assumption.
  rewrite rev_app_distr. simpl. now rewrite Hh.
Qed.

Lemma rstrip_idem (u : pystr) : rstrip (rstrip u) = rstrip u.
Proof.
  unfold rstrip. rewrite rev_involutive.
  now rewrite (lstrip_fix (lstrip (rev u))) by apply lstrip_clean.
Qed.

(** [strip] is idempotent. *)
Lemma strip_idem (s : pystr) : strip (strip s) = strip s.
Proof.
  unfold strip.
  rewrite (lstrip_fix (rstrip (lstrip s))).
  - apply rstrip_idem.
  - apply rstrip_clean, lstrip_clean.
Qed.

Lemma startswith_nil_r (sub : pystr) :
  startswith sub [] = true -> sub = [].
Proof. destruct sub; simpl; congruence. Qed.

Lemma find_from_lower_bound (s sub : pystr) (i : Z) :
  (0 <= i)%Z -> (find_from i s sub = -1 \/ i <= find_from i s sub)%Z.
Proof.
  revert i. induction s as [|c s IH]; intros i Hi; simpl.
  - destruct (startswith sub []); lia.
  - destruct (startswith sub (c :: s)); [lia|].
    destruct (IH (i + 1)%Z ltac:(lia)); lia.
Qed.

(** [find] returns the least offset at which [sub] starts. *)
Lemma find_from_spec (s sub : pystr) (i : Z) :
  (find_from i s sub = (-1)%Z /\
   forall n, (n <= length s)%nat -> startswith sub (skipn n s) = false)
  \/ exists n, (n <= length s)%nat /\ find_from i s sub = (i + Z.of_nat n)%Z
               /\ startswith sub (skipn n s) = true
               /\ forall m, (m < n)%nat -> startswith sub (skipn m s) = false.
Proof.
  revert i. induction s as [|c s IH]; intros i; simpl.
  - destruct (startswith sub []) eqn:E.
    + right. exists 0%nat. simpl. repeat split; auto; lia.
    + left. split; auto. intros n Hn. now rewrite skipn_nil.
  - destruct (startswith sub (c :: s)) eqn:E.
    + right. exists 0%nat. simpl. repeat split; auto; lia.
    + destruct (IH (i + 1)%Z) as [[H1 H2]|[n [Hn [H1 [H2 H3]]]]].
      * left. split; auto. intros [|n] Hn; simpl; auto. apply H2. lia.
      * right. exists (S n). simpl. repeat split; auto; try lia.
        intros [|m] Hm; simpl; auto. apply H3. lia.
Qed.

Lemma lower_ascii_slash (s : pystr) :
  startswith (py "/") s = true -> startswith (py "/") (lower_ascii s) = true.
Proof.
  change (py "/") with [47%N]. unfold lower_ascii.
  destruct s as [|c s]; cbn [map startswith]; auto.
  destruct (N.eqb_spec 47 c) as [<-|]; [reflexivity | discriminate].
Qed.

(** ** The rewritten chain *)

Lemma at_chain_app (a b : list pystr) :
  at_chain (a ++ b) = at_chain a ++ at_chain b.
Proof. unfold at_chain. apply flat_map_app. Qed.

Lemma mentions_app (a b : list Comp) :
  mentions (a ++ b) = mentions a ++ mentions b.
Proof. unfold mentions. apply flat_map_app. Qed.

Lemma mentions_at_chain (sids : list pystr) : mentions (at_chain sids) = sids.
Proof. induction sids as [|s sids IH]; simpl; congruence. Qed.

Lemma rewritten_snoc (init : list pystr) (l msg : pystr) :
  rewritten (init ++ [l]) msg
  = at_chain init ++ [At l; Plain (zwsp_newline ++ msg)].
Proof.
  unfold rewritten. rewrite at_chain_app. simpl at_chain at 2.
  rewrite removelast_app by discriminate. simpl.
  now rewrite <- app_assoc.
Qed.

(** The rewritten message mentions exactly the sids it was built from. *)
Lemma mentions_rewritten (sids : list pystr) (msg : pystr) :
  sids <> [] -> mentions (rewritten sids msg) = sids.
Proof.
  intros H. destruct (exists_last H) as [init [l ->]].
  rewrite rewritten_snoc, mentions_app, mentions_at_chain. reflexivity.
Qed.

(** Its final segment is the marker, the newline and [msg]. *)
Lemma last_rewritten (sids : list pystr) (msg : pystr) :
  last (rewritten sids msg) OtherComp = Plain (zwsp_newline ++ msg).
Proof. unfold rewritten. apply last_last. Qed.

Lemma set_last_at_chain (sids : list pystr) (x : Comp) :
  sids <> [] ->
  set_last (at_chain sids) x = Some (removelast (at_chain sids) ++ [x]).
Proof. destruct sids; simpl; congruence. Qed.

Lemma insert_by_value_length (x : pystr * Z) (l : dict) :
  length (insert_by_value x l) = S (length l).
Proof.
  induction l as [|y l IH]; simpl; auto.
  destruct (snd x <=? snd y)%Z; simpl; auto.
Qed.

Lemma sorted_by_value_length (l : dict) :
  length (sorted_by_value l) = length l.
Proof.
  induction l as [|x l IH]; simpl; auto.
  now rewrite insert_by_value_length, IH.
Qed.

Lemma order_sids_nil (fp : dict) : order_sids fp = [] <-> fp = [].
Proof.
  unfold order_sids. split.
  - intros H. apply (f_equal (@length _)) in H.
    rewrite length_map, sorted_by_value_length in H.
    destruct fp; simpl in H; congruence.
  - intros ->. reflexivity.
Qed.

Lemma broadcast_chain_eq (gid : pystr) (members : list MemberRecord) :
  broadcast_chain gid members = at_chain (broadcast_sids gid members).
Proof.
  unfold broadcast_chain, broadcast_sids.
  induction members as [|rec members IH]; auto.
  cbn [flat_map]. rewrite at_chain_app, IH. f_equal.
  destruct (field_neqb (group_id rec) gid); auto.
  destruct (sid rec) as [s|]; auto. now destruct (negb (truthy s)).
Qed.

(** The hook, in terms of the Lookup Engine and the Message Rewriter. *)
Lemma on_group_message_eq (lower : pystr -> pystr) (self : Plugin)
    (event : AstrMessageEvent) :
  on_group_message lower self event =
  let msg := lower (_strip_at event) in
  let gid := or_empty (get_group_id event) in
  if startswith (py "/") msg then (self, Nothing)
  else if negb (truthy gid) then (_load self, Nothing)
  else match lookup gid msg (store self) with
       | [] => (_load self, Nothing)
       | sids => (_load self, chain_result (rewritten sids msg))
       end.
Proof.
  unfold on_group_message, lookup. cbv zeta.
  destruct (startswith (py "/") (lower (_strip_at event))); auto.
  destruct (negb (truthy (or_empty (get_group_id event)))); auto.
  destruct (existsb _ triggers).
  - rewrite broadcast_chain_eq. unfold store.
    destruct (broadcast_sids _ _) as [|s sids]; reflexivity.
  - destruct (first_pos _ _ _) as [|p fp] eqn:E; auto.
    assert (Hne : order_sids (p :: fp) <> [])
      by (rewrite order_sids_nil; discriminate).
    rewrite set_last_at_chain by assumption.
    destruct (order_sids (p :: fp)) as [|s sids]; [congruence|].
    reflexivity.
Qed.

(** Whatever the hook emits ends with the marker, the newline and the
    case-folded text. *)
Lemma emitted_final_segment (lower : pystr -> pystr) (self : Plugin)
    (event : AstrMessageEvent) (chain : list Comp) :
  snd (on_group_message lower self event) = chain_result chain ->
  last chain OtherComp = Plain (zwsp_newline ++ lower (_strip_at event)).
Proof.
  rewrite on_group_message_eq. cbv zeta.
  destruct (startswith _ _); [discriminate|].
  destruct (negb _); [discriminate|].
  destruct (lookup _ _ _); [discriminate|].
  simpl. intros [= <-]. apply last_rewritten.
Qed.

(** ** The command prefix *)

(** C8: a group message whose stripped plain text begins with ["/"] is
    dropped before the store is loaded: the plugin state is left as it was,
    the Lookup Engine is not run and nothing is emitted, whatever the store
    holds.  [str.lower] keeps a leading ["/"]. *)
Theorem command_prefix_skips_lookup (lower : pystr -> pystr)
    (self : Plugin) (event : AstrMessageEvent) :
  (forall s, startswith (py "/") s = true ->
             startswith (py "/") (lower s) = true) ->
  startswith (py "/") (_strip_at event) = true ->
  on_group_message lower self event = (self, Nothing).
Proof.
  intros Hlow Hcmd. unfold on_group_message. cbv zeta.
  now rewrite (Hlow _ Hcmd).
Qed.

Lemma command_prefix_skips_lookup_witness :
  startswith (py "/") (_strip_at (Ex.text_event "/cat come" Ex.G)) = true
  /\ on_group_message lower_ascii (Ex.loaded Ex.cat_dog)
       (Ex.text_event "/cat come" Ex.G)
     = (Ex.loaded Ex.cat_dog, Nothing).
Proof.
  split; [reflexivity|].
  apply (command_prefix_skips_lookup lower_ascii _ _ lower_ascii_slash).
  reflexivity.
Defined.

(** ** Case folding *)

(** C1: on the message "Hello cat", with the nickname "cat" stored for A,
    the hook emits the mention of A followed by the marker, the newline and
    "hello cat": the text that is re-emitted is the case-folded text, not the
    plain text of the message. *)
Theorem final_segment_is_case_folded :
  snd (on_group_message lower_ascii (Ex.loaded Ex.cat_dog)
         (Ex.text_event "Hello cat" Ex.G))
  = chain_result [At Ex.A; Plain (zwsp_newline ++ py "hello cat")]
  /\ _strip_at (Ex.text_event "Hello cat" Ex.G) = py "Hello cat"
  /\ py "hello cat" <> py "Hello cat".
Proof. repeat split. discriminate. Qed.

(** C2: with the nickname "Cat" stored for A, the message "Cat" is not
    matched and nothing is emitted, while the same message matches the stored
    nickname "cat": the message is case-folded, the stored nickname is only
    trimmed. *)
Theorem uppercase_nickname_not_matched :
  snd (on_group_message lower_ascii (Ex.loaded Ex.upper_cat)
         (Ex.text_event "Cat" Ex.G)) = Nothing
  /\ hit (lower_ascii (py "Cat")) (py "Cat") = None
  /\ snd (on_group_message lower_ascii (Ex.loaded Ex.lower_cat)
            (Ex.text_event "Cat" Ex.G))
     = chain_result [At Ex.A; Plain (zwsp_newline ++ py "cat")].
Proof. repeat split. Qed.

(** ** The dictionary [first_pos] *)

Section Dict.

Implicit Types (d : dict) (s t : pystr) (v i : Z).

Lemma dict_get_none d s :
  dict_get d s = None <-> existsb (PyStr.eqb s) (map fst d) = false.
Proof.
  induction d as [|[k v] d IH]; simpl; [tauto|].
  rewrite (eqb_sym s k). destruct (PyStr.eqb k s); simpl; [|exact IH].
  split; discriminate.
Qed.

Lemma keys_dict_set d s v : map fst (dict_set d s v) = add_new (map fst d) s.
Proof.
  unfold add_new. induction d as [|[k w] d IH]; simpl; auto.
  rewrite (eqb_sym s k). destruct (PyStr.eqb k s); simpl; auto.
  rewrite IH. now destruct (existsb _ _).
Qed.

Lemma dict_get_set_same d s v : dict_get (dict_set d s v) s = Some v.
Proof.
  induction d as [|[k w] d IH]; simpl.
  - now rewrite eqb_refl.
  - destruct (PyStr.eqb k s) eqn:E; simpl; rewrite E; auto.
Qed.

Lemma dict_get_set_other d s t v :
  s <> t -> dict_get (dict_set d s v) t = dict_get d t.
Proof.
  intros Hne. induction d as [|[k w] d IH]; simpl.
  - apply eqb_neq in Hne. now rewrite Hne.
  - destruct (PyStr.eqb k s) eqn:E; simpl.
    + apply eqb_eq in E. subst k. apply eqb_neq in Hne. now rewrite Hne.
    + now rewrite IH.
Qed.

Lemma keys_dict_min d s i : map fst (dict_min d s i) = add_new (map fst d) s.
Proof.
  unfold dict_min. destruct (dict_get d s) as [old|] eqn:E.
  - destruct (i <? old)%Z; [apply keys_dict_set|].
    unfold add_new. destruct (existsb _ _) eqn:E'; auto.
    apply dict_get_none in E'. congruence.
  - apply keys_dict_set.
Qed.

Lemma dict_get_min_same d s i :
  dict_get (dict_min d s i) s = omin (dict_get d s) (Some i).
Proof.
  unfold dict_min. destruct (dict_get d s) as [old|] eqn:E; simpl.
  - destruct (Z.ltb_spec i old).
    + rewrite dict_get_set_same. f_equal. lia.
    + rewrite E. f_equal. lia.
  - apply dict_get_set_same.
Qed.

Lemma dict_get_min_other d s t i :
  s <> t -> dict_get (dict_min d s i) t = dict_get d t.
Proof.
  intros Hne. unfold dict_min. destruct (dict_get d s) as [old|].
  - destruct (i <? old)%Z; auto using dict_get_set_other.
  - now apply dict_get_set_other.
Qed.

Lemma dict_get_in d s v :
  NoDup (map fst d) -> In (s, v) d -> dict_get d s = Some v.
Proof.
  induction d as [|[k w] d IH]; simpl; [tauto|].
  intros Hnd [H|H].
  - injection H as -> ->. now rewrite eqb_refl.
  - inversion Hnd as [|? ? Hk Hd]; subst.
    destruct (PyStr.eqb k s) eqn:E; auto.
    apply eqb_eq in E. subst k. exfalso. apply Hk.
    change s with (fst (s, v)). now apply in_map.
Qed.

Lemma omin_assoc (a b c : option Z) : omin (omin a b) c = omin a (omin b c).
Proof.
  destruct a, b, c; simpl; auto. f_equal. lia.
Qed.

Lemma min_hit_cons i (l : list Z) :
  min_hit (i :: l) = omin (Some i) (min_hit l).
Proof. simpl. now destruct (min_hit l). Qed.

Lemma min_hit_app (a b : list Z) :
  min_hit (a ++ b) = omin (min_hit a) (min_hit b).
Proof.
  induction a as [|i a IH].
  - reflexivity.
  - rewrite <- app_comm_cons, !min_hit_cons, IH. now rewrite omin_assoc.
Qed.

Lemma min_hit_none (l : list Z) : min_hit l = None <-> l = [].
Proof.
  destruct l as [|i l]; simpl; [tauto|].
  destruct (min_hit l); split; discriminate.
Qed.

Lemma add_new_idem (seen : list pystr) s :
  add_new (add_new seen s) s = add_new seen s.
Proof.
  unfold add_new at 2 3. destruct (existsb _ seen) eqn:E.
  - unfold add_new. now rewrite E.
  - unfold add_new. rewrite existsb_app. simpl. rewrite eqb_refl.
    now rewrite orb_true_r.
Qed.

(** Folding the occurrences [hs] of the nicknames of [s] into [d]. *)
Lemma fold_dict_min_keys (hs : list Z) d s :
  map fst (fold_left (fun d i => dict_min d s i) hs d)
  = match hs with [] => map fst d | _ :: _ => add_new (map fst d) s end.
Proof.
  revert d. induction hs as [|i hs IH]; intros d; simpl; auto.
  rewrite IH. destruct hs; [apply keys_dict_min|].
  rewrite keys_dict_min. apply add_new_idem.
Qed.

Lemma fold_dict_min_same (hs : list Z) d s :
  dict_get (fold_left (fun d i => dict_min d s i) hs d) s
  = omin (dict_get d s) (min_hit hs).
Proof.
  revert d. induction hs as [|i hs IH]; intros d.
  - simpl. now destruct (dict_get d s).
  - cbn [fold_left]. rewrite IH, dict_get_min_same, min_hit_cons.
    apply omin_assoc.
Qed.

Lemma fold_dict_min_other (hs : list Z) d s t :
  s <> t ->
  dict_get (fold_left (fun d i => dict_min d s i) hs d) t = dict_get d t.
Proof.
  intros Hne. revert d. induction hs as [|i hs IH]; intros d; simpl; auto.
  rewrite IH. now apply dict_get_min_other.
Qed.

End Dict.

(** ** The scan of the store *)

Lemma omin_none_r (a : option Z) : omin a None = a.
Proof. now destruct a. Qed.

Lemma scan_nickname_hit (msg s : pystr) (d : dict) (raw : pystr) :
  scan_nickname msg s d raw
  = match hit msg raw with Some idx => dict_min d s idx | None => d end.
Proof.
  unfold scan_nickname, hit, dict_min. cbv zeta.
  destruct (negb (truthy (_norm_str raw))); auto.
  destruct (find msg (_norm_str raw) =? -1)%Z; auto.
Qed.

Lemma fold_scan_nickname (msg s : pystr) (nicks : list pystr) (d : dict) :
  fold_left (scan_nickname msg s) nicks d
  = fold_left (fun d i => dict_min d s i)
      (flat_map (fun raw => match hit msg raw with
                            | Some i => [i]
                            | None => []
                            end) nicks) d.
Proof.
  revert d. induction nicks as [|raw nicks IH]; intros d; simpl; auto.
  rewrite fold_left_app, IH, scan_nickname_hit.
  now destruct (hit msg raw).
Qed.

Lemma scan_record_eq (gid msg : pystr) (d : dict) (rec : MemberRecord) :
  scan_record gid msg d rec
  = match live_sid gid rec with
    | Some s => fold_left (fun d i => dict_min d s i) (hits msg rec) d
    | None => d
    end.
Proof.
  unfold scan_record, live_sid, field_neqb, hits.
  destruct (field_eqb (group_id rec) gid); simpl; auto.
  destruct (sid rec) as [s|]; auto.
  destruct (truthy s); simpl; auto. apply fold_scan_nickname.
Qed.

Lemma scan_keys (gid msg : pystr) (members : list MemberRecord) (d : dict) :
  map fst (fold_left (scan_record gid msg) members d)
  = fold_left add_new (matched_records gid msg members) (map fst d).
Proof.
  revert d. induction members as [|rec members IH]; intros d; auto.
  cbn [fold_left]. rewrite IH. unfold matched_records at 2.
  cbn [flat_map]. rewrite fold_left_app. f_equal.
  rewrite scan_record_eq. destruct (live_sid gid rec) as [s|]; auto.
  rewrite fold_dict_min_keys. now destruct (hits msg rec).
Qed.

Lemma scan_get (gid msg : pystr) (members : list MemberRecord) (d : dict)
    (t : pystr) :
  dict_get (fold_left (scan_record gid msg) members d) t
  = omin (dict_get d t) (min_hit (sid_hits gid msg members t)).
Proof.
  revert d. induction members as [|rec members IH]; intros d.
  - simpl. now rewrite omin_none_r.
  - cbn [fold_left]. rewrite IH. unfold sid_hits at 2. cbn [flat_map].
    rewrite min_hit_app, <- omin_assoc. f_equal.
    rewrite scan_record_eq. destruct (live_sid gid rec) as [s|].
    + destruct (PyStr.eqb s t) eqn:E.
      * apply eqb_eq in E. subst t. apply fold_dict_min_same.
      * apply eqb_neq in E. rewrite fold_dict_min_other by assumption.
        now rewrite omin_none_r.
    + now rewrite omin_none_r.
Qed.

(** The keys of [first_pos] are the matched sids, each where it first
    matched. *)
Lemma first_pos_keys (gid msg : pystr) (members : list MemberRecord) :
  map fst (first_pos gid msg members)
  = first_seen (matched_records gid msg members).
Proof. unfold first_pos, first_seen. now rewrite scan_keys. Qed.

(** The value of a key is the least index of its nicknames. *)
Lemma first_pos_get (gid msg : pystr) (members : list MemberRecord)
    (s : pystr) :
  dict_get (first_pos gid msg members) s
  = min_hit (sid_hits gid msg members s).
Proof. unfold first_pos. now rewrite scan_get. Qed.

(** ** First occurrences *)

Lemma existsb_eqb_in (x : pystr) (l : list pystr) :
  existsb (PyStr.eqb x) l = true <-> In x l.
Proof.
  rewrite existsb_exists. split.
  - intros [y [Hy E]]. apply eqb_eq in E. now subst.
  - intros H. exists x. split; auto. apply eqb_refl.
Qed.

Lemma add_new_in (seen : list pystr) (x y : pystr) :
  In y (add_new seen x) <-> In y seen \/ y = x.
Proof.
  unfold add_new. destruct (existsb (PyStr.eqb x) seen) eqn:E.
  - apply existsb_eqb_in in E. split; [tauto|]. intros [H| ->]; auto.
  - rewrite in_app_iff. simpl. split; intros [H|H]; auto.
    + destruct H; auto. contradiction.
Qed.

Lemma add_new_nodup (seen : list pystr) (x : pystr) :
  NoDup seen -> NoDup (add_new seen x).
Proof.
  intros H. unfold add_new. destruct (existsb (PyStr.eqb x) seen) eqn:E; auto.
  apply NoDup_app; auto.
  - constructor; [simpl; tauto | constructor].
  - intros y Hy [<-|[]].
    apply existsb_eqb_in in Hy. congruence.
Qed.

Lemma fold_add_new_in (l seen : list pystr) (y : pystr) :
  In y (fold_left add_new l seen) <-> In y seen \/ In y l.
Proof.
  revert seen. induction l as [|x l IH]; intros seen; simpl; [tauto|].
  rewrite IH, add_new_in. intuition.
Qed.

Lemma fold_add_new_nodup (l seen : list pystr) :
  NoDup seen -> NoDup (fold_left add_new l seen).
Proof.
  revert seen. induction l as [|x l IH]; intros seen H; simpl; auto.
  apply IH. now apply add_new_nodup.
Qed.

Lemma fold_add_new_fresh (l seen : list pystr) :
  NoDup (seen ++ l) -> fold_left add_new l seen = seen ++ l.
Proof.
  revert seen. induction l as [|x l IH]; intros seen H; simpl.
  - now rewrite app_nil_r.
  - assert (E : add_new seen x = seen ++ [x]).
    { unfold add_new. destruct (existsb (PyStr.eqb x) seen) eqn:E; auto.
      apply existsb_eqb_in in E. apply NoDup_remove_2 in H.
      exfalso. apply H. apply in_or_app. now left. }
    rewrite E, IH; rewrite <- app_assoc; auto.
Qed.

Lemma first_seen_in (l : list pystr) (y : pystr) :
  In y (first_seen l) <-> In y l.
Proof. unfold first_seen. rewrite fold_add_new_in. simpl. tauto. Qed.

Lemma first_seen_nodup (l : list pystr) : NoDup (first_seen l).
Proof. apply fold_add_new_nodup. constructor. Qed.

(** A list without repetition is its own list of first occurrences. *)
Lemma first_seen_id (l : list pystr) : NoDup l -> first_seen l = l.
Proof. intros H. unfold first_seen. now rewrite fold_add_new_fresh. Qed.

(** ** [sorted] *)

Section Sorting.

Implicit Types (x y : pystr * Z) (l : dict).

Lemma insert_by_value_perm x l : Permutation (insert_by_value x l) (x :: l).
Proof.
  induction l as [|y l IH]; simpl; auto.
  destruct (snd x <=? snd y)%Z; auto.
  rewrite IH. apply perm_swap.
Qed.

Lemma sorted_by_value_perm l : Permutation (sorted_by_value l) l.
Proof.
  induction l as [|x l IH]; simpl; auto.
  rewrite insert_by_value_perm. now constructor.
Qed.

Lemma insert_by_value_sorted x l :
  StronglySorted value_le l -> StronglySorted value_le (insert_by_value x l).
Proof.
  induction 1 as [|y l Hl IH Hy]; simpl.
  - repeat constructor.
  - destruct (Z.leb_spec (snd x) (snd y)) as [Hle|Hgt].
    + constructor; [now constructor|].
      constructor; [exact Hle|].
      eapply Forall_impl; [|exact Hy]. unfold value_le. intros; lia.
    + constructor; auto.
      rewrite insert_by_value_perm. constructor; auto.
      unfold value_le. lia.
Qed.

Lemma sorted_by_value_sorted l : StronglySorted value_le (sorted_by_value l).
Proof.
  induction l as [|x l IH]; simpl; [constructor|].
  now apply insert_by_value_sorted.
Qed.

(** Insertion passes only items of strictly smaller value, so items of
    equal value keep their order: the sort is stable. *)
Lemma insert_by_value_stable x l (k : Z) :
  filter (fun p => (snd p =? k)%Z) (insert_by_value x l)
  = filter (fun p => (snd p =? k)%Z) (x :: l).
Proof.
  induction l as [|y l IH]; auto.
  cbn [insert_by_value]. destruct (Z.leb_spec (snd x) (snd y)); auto.
  cbn [filter] in *. rewrite IH.
  destruct (Z.eqb_spec (snd x) k), (Z.eqb_spec (snd y) k); auto; lia.
Qed.

Lemma sorted_by_value_stable l (k : Z) :
  filter (fun p => (snd p =? k)%Z) (sorted_by_value l)
  = filter (fun p => (snd p =? k)%Z) l.
Proof.
  induction l as [|x l IH]; auto.
  cbn [sorted_by_value]. rewrite insert_by_value_stable.
  cbn [filter]. now rewrite IH.
Qed.

Variable key : pystr -> Z.

Lemma keyed_sorted l :
  Forall (fun p => snd p = key (fst p)) l ->
  StronglySorted value_le l ->
  StronglySorted (fun a b => (key a <= key b)%Z) (map fst l).
Proof.
  intros Hk. induction 1 as [|y l Hl IH Hy]; simpl; constructor.
  - apply IH. now inversion Hk.
  - inversion Hk as [|? ? Ey Hkl]; subst.
    apply Forall_map. rewrite Forall_forall in *.
    intros p Hp. specialize (Hy p Hp). unfold value_le in Hy.
    rewrite <- Ey, <- (Hkl p Hp). exact Hy.
Qed.

Lemma keyed_filter l (k : Z) :
  Forall (fun p => snd p = key (fst p)) l ->
  map fst (filter (fun p => (snd p =? k)%Z) l)
  = filter (fun s => (key s =? k)%Z) (map fst l).
Proof.
  induction 1 as [|p l Ep Hl IH]; simpl; auto.
  rewrite <- Ep. destruct (snd p =? k)%Z; simpl; now rewrite IH.
Qed.

End Sorting.

(** Every item of [first_pos] pairs a sid with its minimum index. *)
Lemma first_pos_values (gid msg : pystr) (members : list MemberRecord) :
  Forall (fun p => snd p = min_index gid msg members (fst p))
         (first_pos gid msg members).
Proof.
  apply Forall_forall. intros [s v] Hin. simpl.
  assert (Hnd : NoDup (map fst (first_pos gid msg members)))
    by (rewrite first_pos_keys; apply first_seen_nodup).
  pose proof (dict_get_in _ _ _ Hnd Hin) as Hget.
  rewrite first_pos_get in Hget. unfold min_index. now rewrite Hget.
Qed.

Lemma matched_records_truthy (gid msg : pystr) (members : list MemberRecord)
    (s : pystr) :
  In s (matched_records gid msg members) -> truthy s = true.
Proof.
  unfold matched_records. rewrite in_flat_map. intros [rec [_ H]].
  unfold live_sid in H. destruct (field_eqb _ _); [|contradiction].
  destruct (sid rec) as [s'|]; [|contradiction].
  destruct (truthy s') eqn:E; [|contradiction].
  destruct (hits msg rec); [contradiction|].
  destruct H as [<-|[]]. exact E.
Qed.

Lemma order_sids_in (gid msg : pystr) (members : list MemberRecord)
    (s : pystr) :
  In s (order_sids (first_pos gid msg members))
  <-> In s (matched_records gid msg members).
Proof.
  unfold order_sids.
  rewrite <- (first_seen_in (matched_records gid msg members)).
  rewrite <- first_pos_keys.
  split; apply Permutation_in, Permutation_map;
    [|symmetry]; apply sorted_by_value_perm.
Qed.

Lemma broadcast_sids_live (gid : pystr) (members : list MemberRecord) :
  broadcast_sids gid members
  = flat_map (fun rec => match live_sid gid rec with
                         | Some s => [s]
                         | None => []
                         end) members.
Proof.
  unfold broadcast_sids, live_sid, field_neqb.
  apply flat_map_ext. intros rec.
  destruct (field_eqb (group_id rec) gid); simpl; auto.
  destruct (sid rec) as [s|]; auto. now destruct (truthy s).
Qed.

Lemma matched_records_incl (gid msg : pystr) (members : list MemberRecord) :
  incl (matched_records gid msg members) (broadcast_sids gid members).
Proof.
  rewrite broadcast_sids_live. unfold matched_records.
  intros s. rewrite !in_flat_map. intros [rec [Hrec H]].
  exists rec. split; auto.
  destruct (live_sid gid rec); [|contradiction].
  now destruct (hits msg rec).
Qed.

(** When no two records of the group share a sid, the matched records are
    already distinct. *)
Lemma matched_records_nodup (gid msg : pystr) (members : list MemberRecord) :
  NoDup (broadcast_sids gid members) ->
  NoDup (matched_records gid msg members).
Proof.
  induction members as [|rec members IH]; [constructor|].
  pose proof (matched_records_incl gid msg members) as Hincl.
  rewrite broadcast_sids_live in *. unfold matched_records in *.
  cbn [flat_map]. intros H.
  destruct (live_sid gid rec) as [s|]; [|now apply IH].
  simpl in H. inversion H as [|? ? Hs Hrest]; subst.
  destruct (hits msg rec); [now apply IH|].
  simpl. constructor; auto.
Qed.

(** What [min_hit] returns is an element of the list and a lower bound of
    it. *)
Lemma min_hit_least (l : list Z) (m : Z) :
  min_hit l = Some m -> In m l /\ Forall (fun i => (m <= i)%Z) l.
Proof.
  revert m. induction l as [|i l IH]; intros m; [discriminate|].
  rewrite min_hit_cons. destruct (min_hit l) as [j|] eqn:E; simpl.
  - intros [= <-]. destruct (IH j eq_refl) as [Hin Hall]. split.
    + destruct (Z.min_spec i j) as [[_ ->]|[_ ->]]; auto.
    + constructor; [lia|]. eapply Forall_impl; [|exact Hall].
      simpl. intros; lia.
  - intros [= <-]. apply min_hit_none in E. subst l.
    split; [now left | repeat constructor; lia].
Qed.

(** The index a nickname contributes is the least offset at which its
    trimmed form starts in the message. *)
Lemma hit_first_occurrence (msg raw : pystr) (i : Z) :
  hit msg raw = Some i ->
  _norm_str raw <> []
  /\ exists n, i = Z.of_nat n
               /\ startswith (_norm_str raw) (skipn n msg) = true
               /\ forall m, (m < n)%nat ->
                            startswith (_norm_str raw) (skipn m msg) = false.
Proof.
  unfold hit. cbv zeta. destruct (_norm_str raw) as [|c nick] eqn:E;
    [discriminate|]. cbn [truthy negb].
  destruct (Z.eqb_spec (find msg (c :: nick)) (-1)) as [|Hne];
    [discriminate|].
  intros [= <-]. split; [discriminate|]. unfold find in *.
  destruct (find_from_spec msg (c :: nick) 0) as [[H _]|[n [_ [H1 [H2 H3]]]]];
    [congruence|].
  exists n. rewrite H1. auto.
Qed.

(** The first occurrences of [x :: l]: [x], then those of the rest of the
    list without [x]. *)
Lemma fold_add_new_cons (l seen : list pystr) (x : pystr) :
  fold_left add_new l (x :: seen)
  = x :: fold_left add_new (filter (fun y => negb (PyStr.eqb y x)) l) seen.
Proof.
  revert seen. induction l as [|y l IH]; intros seen; auto.
  cbn [fold_left filter]. unfold add_new at 2. cbn [existsb].
  destruct (PyStr.eqb y x) eqn:E; cbn [negb orb].
  - apply IH.
  - cbn [fold_left]. unfold add_new at 3.
    destruct (existsb (PyStr.eqb y) seen); apply IH.
Qed.

Lemma first_seen_cons (l : list pystr) (x : pystr) :
  first_seen (x :: l)
  = x :: first_seen (filter (fun y => negb (PyStr.eqb y x)) l).
Proof. unfold first_seen. cbn [fold_left]. apply fold_add_new_cons. Qed.

(** ** Lookup ordering *)

(** C3: when the message is not a command, a nickname of the group matches
    and no broadcast trigger occurs, the hook mentions the distinct matched
    sids sorted ascending by their key, the minimum first-occurrence index
    of a sid over the nicknames of its records; sids of equal key stay in
    the order in which they first match in Store iteration order (the sort
    is stable), which is the order of the matched records when no two
    records of the group share a sid.  With "cat" for A and "dog" for B,
    "the dog chased the cat" gives [B, A]. *)
Theorem lookup_sorted_by_first_occurrence (lower : pystr -> pystr)
    (self : Plugin) (event : AstrMessageEvent) :
  let msg := lower (_strip_at event) in
  let gid := or_empty (get_group_id event) in
  let members := store self in
  let result := order_sids (first_pos gid msg members) in
  let key := min_index gid msg members in
  startswith (py "/") msg = false ->
  truthy gid = true ->
  existsb (fun trigger => contains trigger msg) triggers = false ->
  matched_records gid msg members <> [] ->
  snd (on_group_message lower self event) = chain_result (rewritten result msg)
  /\ mentions (rewritten result msg) = result
  /\ lookup gid msg members = result
  /\ NoDup result
  /\ (forall s, In s result <-> In s (matched_records gid msg members))
  /\ (forall s, In s result ->
                In (key s) (sid_hits gid msg members s)
                /\ Forall (fun i => (key s <= i)%Z)
                          (sid_hits gid msg members s))
  /\ StronglySorted (fun a b => (key a <= key b)%Z) result
  /\ (forall k, filter (fun s => (key s =? k)%Z) result
                = filter (fun s => (key s =? k)%Z)
                         (first_seen (matched_records gid msg members)))
  /\ (NoDup (broadcast_sids gid members) ->
      forall k, filter (fun s => (key s =? k)%Z) result
                = filter (fun s => (key s =? k)%Z)
                         (matched_records gid msg members))
  /\ order_sids (first_pos Ex.G (py "the dog chased the cat") Ex.cat_dog)
     = [Ex.B; Ex.A].
Proof.
  intros msg gid members result key Hcmd Hgid Htrig Hmatch.
  assert (Hin : forall s, In s result
                          <-> In s (matched_records gid msg members))
    by apply order_sids_in.
  assert (Hne : result <> []).
  { destruct (matched_records gid msg members) as [|s l] eqn:E; [congruence|].
    intros Hnil. assert (Hs : In s result)
      by (apply Hin; now left).
    rewrite Hnil in Hs. contradiction. }
  assert (Hlook : lookup gid msg members = result)
    by (unfold lookup; now rewrite Htrig).
  assert (Hstable : forall k,
             filter (fun s => (key s =? k)%Z) result
             = filter (fun s => (key s =? k)%Z)
                 (first_seen (matched_records gid msg members))).
  { intros k. unfold result, order_sids.
    rewrite <- first_pos_keys.
    rewrite <- !(keyed_filter key).
    - now rewrite sorted_by_value_stable.
    - apply first_pos_values.
    - eapply Permutation_Forall; [|apply first_pos_values].
      symmetry. apply sorted_by_value_perm. }
  split.
  { rewrite on_group_message_eq. cbv zeta. fold msg gid members.
    rewrite Hcmd, Hgid, Hlook. cbn [negb].
    destruct result; [congruence | reflexivity]. }
  split; [now apply mentions_rewritten|].
  split; [exact Hlook|].
  split.
  { unfold result, order_sids.
    eapply Permutation_NoDup.
    - apply Permutation_map. symmetry. apply sorted_by_value_perm.
    - rewrite first_pos_keys. apply first_seen_nodup. }
  split; [exact Hin|].
  split.
  { intros s Hs. apply Hin in Hs.
    rewrite <- first_seen_in, <- first_pos_keys in Hs.
    apply existsb_eqb_in in Hs.
    destruct (dict_get (first_pos gid msg members) s) as [v|] eqn:Hget;
      [|apply dict_get_none in Hget; congruence].
    rewrite first_pos_get in Hget. unfold key, min_index. rewrite Hget.
    now apply min_hit_least. }
  split.
  { unfold result, order_sids. apply keyed_sorted.
    - eapply Permutation_Forall; [|apply first_pos_values].
      symmetry. apply sorted_by_value_perm.
    - apply sorted_by_value_sorted. }
  split; [exact Hstable|].
  split; [|vm_compute; reflexivity].
  intros Hnd k. rewrite Hstable.
  now rewrite first_seen_id by (now apply matched_records_nodup).
Qed.

Lemma lookup_sorted_by_first_occurrence_witness :
  let event := Ex.text_event "the dog chased the cat" Ex.G in
  let self := Ex.loaded Ex.cat_dog in
  snd (on_group_message lower_ascii self event)
  = chain_result [At Ex.B; Plain nbsp; At Ex.A;
                  Plain (zwsp_newline ++ py "the dog chased the cat")].
Proof.
  intros event self.
  refine (proj1 (lookup_sorted_by_first_occurrence lower_ascii self event
                   _ _ _ _)); vm_compute; [reflexivity ..| discriminate].
Defined.

(** ** The broadcast branch *)

Lemma live_sid_truthy (gid : pystr) (rec : MemberRecord) (s : pystr) :
  live_sid gid rec = Some s -> truthy s = true.
Proof.
  unfold live_sid. destruct (field_eqb _ _); [|discriminate].
  destruct (sid rec) as [s'|]; [|discriminate].
  destruct (truthy s') eqn:E; [|discriminate]. now intros [= <-].
Qed.

Lemma broadcast_sids_truthy (gid : pystr) (members : list MemberRecord) :
  Forall (fun s => truthy s = true) (broadcast_sids gid members).
Proof.
  rewrite broadcast_sids_live. apply Forall_forall. intros s.
  rewrite in_flat_map. intros [rec [_ H]].
  destruct (live_sid gid rec) as [s'|] eqn:E; [|contradiction].
  destruct H as [<-|[]]. eapply live_sid_truthy; eauto.
Qed.

Lemma broadcast_sids_selected (gid : pystr) (members : list MemberRecord) :
  map Some (broadcast_sids gid members)
  = map sid (filter (fun rec => in_group gid rec && has_sid rec) members).
Proof.
  unfold broadcast_sids, in_group, has_sid, field_neqb.
  induction members as [|rec members IH]; auto.
  cbn [flat_map filter]. rewrite map_app, IH.
  destruct (field_eqb (group_id rec) gid); simpl; auto.
  destruct (sid rec) as [s|] eqn:E; simpl; auto.
  destruct (truthy s); simpl; congruence.
Qed.

Lemma broadcast_sids_identity (gid : pystr) (m1 m2 : list MemberRecord) :
  map identity m1 = map identity m2 ->
  broadcast_sids gid m1 = broadcast_sids gid m2.
Proof.
  revert m2. induction m1 as [|r1 m1 IH]; intros [|r2 m2]; simpl;
    try discriminate; auto.
  unfold identity at 1 3. intros [= Hs Hg Hrest].
  now rewrite Hs, Hg, (IH _ Hrest).
Qed.

(** C4: when the case-folded text of a message that is not a command
    contains a broadcast trigger, the Lookup Engine returns the broadcast
    selection: the sids of exactly the records of the group with a non-empty
    sid, in Store iteration order; the hook mentions them and nothing else,
    and two stores that differ only in nicknames give the same output. *)
Theorem broadcast_selects_group (lower : pystr -> pystr)
    (self : Plugin) (event : AstrMessageEvent) :
  let msg := lower (_strip_at event) in
  let gid := or_empty (get_group_id event) in
  let selected := broadcast_sids gid (store self) in
  startswith (py "/") msg = false ->
  truthy gid = true ->
  existsb (fun trigger => contains trigger msg) triggers = true ->
  lookup gid msg (store self) = selected
  /\ map Some selected
     = map sid (filter (fun rec => in_group gid rec && has_sid rec)
                       (store self))
  /\ snd (on_group_message lower self event)
     = match selected with
       | [] => Nothing
       | _ :: _ => chain_result (rewritten selected msg)
       end
  /\ (selected <> [] -> mentions (rewritten selected msg) = selected)
  /\ (forall self' : Plugin,
        map identity (store self') = map identity (store self) ->
        snd (on_group_message lower self' event)
        = snd (on_group_message lower self event)).
Proof.
  intros msg gid selected Hcmd Hgid Htrig.
  assert (Hlook : forall m, lookup gid msg m = broadcast_sids gid m)
    by (intros m; unfold lookup; now rewrite Htrig).
  assert (Hhook : forall p : Plugin,
             snd (on_group_message lower p event)
             = match broadcast_sids gid (store p) with
               | [] => Nothing
               | _ :: _ => chain_result
                             (rewritten (broadcast_sids gid (store p)) msg)
               end).
  { intros p. rewrite on_group_message_eq. cbv zeta. fold msg gid.
    rewrite Hcmd, Hgid. cbn [negb]. fold (store p). rewrite Hlook.
    now destruct (broadcast_sids gid (store p)). }
  split; [apply Hlook|].
  split; [apply broadcast_sids_selected|].
  split; [apply Hhook|].
  split; [apply mentions_rewritten|].
  intros self' Hid. rewrite !Hhook.
  now rewrite (broadcast_sids_identity gid _ _ Hid).
Qed.

Lemma broadcast_selects_group_witness :
  let event := mkEvent [Plain [37117; 26469; 24247]%N] None (Some Ex.G) in
  let self := Ex.loaded (Ex.cat_dog ++ [Ex.member [] Ex.C Ex.G]) in
  snd (on_group_message lower_ascii self event)
  = chain_result [At Ex.A; Plain nbsp; At Ex.B; Plain nbsp; At Ex.C;
                  Plain (zwsp_newline ++ [37117; 26469; 24247]%N)].
Proof.
  intros event self.
  refine (proj1 (proj2 (proj2
            (broadcast_selects_group lower_ascii self event _ _ _))));
    vm_compute; reflexivity.
Defined.

(** ** Group isolation *)

Lemma broadcast_sids_in_group (gid : pystr) (members : list MemberRecord) :
  broadcast_sids gid (filter (in_group gid) members)
  = broadcast_sids gid members.
Proof.
  unfold broadcast_sids, in_group, field_neqb.
  induction members as [|rec members IH]; auto.
  cbn [filter flat_map]. destruct (field_eqb (group_id rec) gid) eqn:E.
  - cbn [flat_map]. rewrite E. now rewrite IH.
  - simpl. exact IH.
Qed.

Lemma scan_in_group (gid msg : pystr) (members : list MemberRecord)
    (d : dict) :
  fold_left (scan_record gid msg) (filter (in_group gid) members) d
  = fold_left (scan_record gid msg) members d.
Proof.
  revert d. induction members as [|rec members IH]; intros d; auto.
  cbn [filter fold_left]. unfold in_group at 1.
  destruct (field_eqb (group_id rec) gid) eqn:E.
  - cbn [fold_left]. apply IH.
  - rewrite IH. f_equal. unfold scan_record, field_neqb. now rewrite E.
Qed.

(** Only the records of the group take part in a lookup. *)
Lemma lookup_in_group (gid msg : pystr) (members : list MemberRecord) :
  lookup gid msg (filter (in_group gid) members) = lookup gid msg members.
Proof.
  unfold lookup, first_pos.
  now rewrite broadcast_sids_in_group, scan_in_group.
Qed.

(** C7: for a message of group G2, two stores with the same records of G2
    give the same output of the hook, and the same result in the broadcast
    branch and in the matching branch for every text; records of other
    groups, with whatever nicknames, take no part. *)
Theorem cross_group_noninterference (lower : pystr -> pystr)
    (self1 self2 : Plugin) (event : AstrMessageEvent) :
  let g2 := or_empty (get_group_id event) in
  filter (in_group g2) (store self1) = filter (in_group g2) (store self2) ->
  snd (on_group_message lower self1 event)
  = snd (on_group_message lower self2 event)
  /\ (forall msg,
        broadcast_sids g2 (store self1) = broadcast_sids g2 (store self2)
        /\ first_pos g2 msg (store self1) = first_pos g2 msg (store self2)
        /\ lookup g2 msg (store self1) = lookup g2 msg (store self2)).
Proof.
  intros g2 Hagree.
  assert (Hlook : forall msg,
             lookup g2 msg (store self1) = lookup g2 msg (store self2)).
  { intros msg. rewrite <- (lookup_in_group g2 msg (store self1)).
    rewrite Hagree. apply lookup_in_group. }
  split.
  - rewrite !on_group_message_eq. cbv zeta. fold g2.
    destruct (startswith _ _); auto.
    destruct (negb (truthy g2)); auto.
    rewrite Hlook. now destruct (lookup _ _ _).
  - intros msg. split; [|split; [|apply Hlook]].
    + rewrite <- (broadcast_sids_in_group g2 (store self1)).
      rewrite Hagree. apply broadcast_sids_in_group.
    + unfold first_pos. rewrite <- (scan_in_group g2 msg (store self1)).
      rewrite Hagree. apply scan_in_group.
Qed.

Lemma cross_group_noninterference_witness :
  let event := Ex.text_event "come here cat" Ex.G in
  let self1 := Ex.loaded (Ex.member ["come"%string] Ex.C Ex.G1 :: Ex.cat_dog) in
  let self2 := Ex.loaded Ex.cat_dog in
  snd (on_group_message lower_ascii self1 event)
  = snd (on_group_message lower_ascii self2 event).
Proof.
  intros event self1 self2.
  refine (proj1 (cross_group_noninterference lower_ascii self1 self2 event _)).
  reflexivity.
Defined.

(** ** Blank nicknames and empty sids *)

Lemma scan_nickname_blank (msg s : pystr) (d : dict) (raw : pystr) :
  truthy (_norm_str raw) = false -> scan_nickname msg s d raw = d.
Proof. intros H. unfold scan_nickname. cbv zeta. now rewrite H. Qed.

Lemma fold_scan_without_blank (msg s : pystr) (nicks : list pystr) (d : dict) :
  fold_left (scan_nickname msg s)
            (filter (fun x => truthy (_norm_str x)) nicks) d
  = fold_left (scan_nickname msg s) nicks d.
Proof.
  revert d. induction nicks as [|raw nicks IH]; intros d; auto.
  cbn [filter fold_left]. destruct (truthy (_norm_str raw)) eqn:E.
  - cbn [fold_left]. apply IH.
  - now rewrite scan_nickname_blank by assumption.
Qed.

Lemma scan_record_without_blank (gid msg : pystr) (d : dict)
    (rec : MemberRecord) :
  scan_record gid msg d (without_blank rec) = scan_record gid msg d rec.
Proof.
  unfold scan_record, without_blank, get_nickname. simpl.
  destruct (field_neqb (group_id rec) gid); auto.
  destruct (sid rec) as [s|]; auto.
  destruct (negb (truthy s)); auto.
  destruct (nickname rec) as [nicks|]; simpl; auto.
  apply fold_scan_without_blank.
Qed.

Lemma first_pos_without_blank (gid msg : pystr) (members : list MemberRecord) :
  first_pos gid msg (map without_blank members) = first_pos gid msg members.
Proof.
  unfold first_pos. generalize (@nil (pystr * Z)) as d.
  induction members as [|rec members IH]; intros d; auto.
  cbn [map fold_left]. now rewrite scan_record_without_blank, IH.
Qed.

Lemma find_empty (msg : pystr) : find msg [] = 0%Z.
Proof. now destruct msg. Qed.

(** C9: a stored nickname that trims to the empty string is skipped by the
    matching branch: it leaves [first_pos] as it is and contributes no index
    (a search for the empty string would succeed at index 0 in every
    message), so the matching branch computes the same [first_pos], and the
    same order of sids, on the store without such entries. *)
Theorem blank_nickname_never_matches :
  (forall msg s d raw, truthy (_norm_str raw) = false ->
                       scan_nickname msg s d raw = d)
  /\ (forall msg raw, truthy (_norm_str raw) = false -> hit msg raw = None)
  /\ (forall msg, find msg [] = 0%Z)
  /\ (forall gid msg members,
        first_pos gid msg (map without_blank members)
        = first_pos gid msg members)
  /\ (forall gid msg rec, hits msg (without_blank rec) = hits msg rec
                          /\ (Forall (fun raw => truthy (_norm_str raw) = false)
                                     (get_nickname rec) ->
                              forall d, scan_record gid msg d rec = d)).
Proof.
  split; [exact scan_nickname_blank|].
  split; [intros msg raw H; unfold hit; cbv zeta; now rewrite H|].
  split; [exact find_empty|].
  split; [exact first_pos_without_blank|].
  intros gid msg rec. split.
  - unfold hits, without_blank, get_nickname. simpl.
    destruct (nickname rec) as [nicks|]; simpl; auto.
    induction nicks as [|raw nicks IH]; auto.
    cbn [filter flat_map]. destruct (truthy (_norm_str raw)) eqn:E.
    + cbn [flat_map]. now rewrite IH.
    + rewrite IH. unfold hit at 2. cbv zeta. now rewrite E.
  - intros Hall d. unfold scan_record.
    destruct (field_neqb _ _); auto.
    destruct (sid rec) as [s|]; auto.
    destruct (negb (truthy s)); auto.
    revert d. induction Hall as [|raw nicks Hraw _ IH]; intros d; auto.
    cbn [fold_left]. now rewrite scan_nickname_blank by assumption.
Qed.

Lemma blank_nickname_never_matches_witness :
  snd (on_group_message lower_ascii
         (Ex.loaded [Ex.member ["  "%string; " "%string] Ex.A Ex.G])
         (Ex.text_event "hello  there" Ex.G)) = Nothing
  /\ scan_nickname (py "hello  there") Ex.A [] (py "  ") = [].
Proof.
  split; [reflexivity|].
  apply (proj1 blank_nickname_never_matches). reflexivity.
Defined.

(** C10: the matching branch skips a record whose sid is missing or empty,
    the sids it orders are all non-empty, and every mention of a chain the
    hook emits, from either branch, carries a non-empty sid. *)
Theorem mentions_nonempty_sid (lower : pystr -> pystr) (self : Plugin)
    (event : AstrMessageEvent) (chain : list Comp) :
  snd (on_group_message lower self event) = chain_result chain ->
  Forall (fun s => truthy s = true) (mentions chain)
  /\ (forall gid msg members,
        Forall (fun s => truthy s = true)
               (order_sids (first_pos gid msg members)))
  /\ (forall gid msg d rec, has_sid rec = false ->
                            scan_record gid msg d rec = d).
Proof.
  intros Hemit.
  assert (Hmatch : forall gid msg members,
             Forall (fun s => truthy s = true)
                    (order_sids (first_pos gid msg members))).
  { intros gid msg members. apply Forall_forall. intros s Hs.
    apply order_sids_in in Hs. eapply matched_records_truthy; eauto. }
  split; [|split; [exact Hmatch|]].
  - rewrite on_group_message_eq in Hemit. cbv zeta in Hemit.
    destruct (startswith _ _); [discriminate|].
    destruct (negb _); [discriminate|].
    destruct (lookup _ _ _) as [|s sids] eqn:E; [discriminate|].
    simpl in Hemit. injection Hemit as <-.
    rewrite mentions_rewritten by discriminate.
    rewrite <- E. unfold lookup. destruct (existsb _ _).
    + apply broadcast_sids_truthy.
    + apply Hmatch.
  - intros gid msg d rec Hsid. unfold scan_record, has_sid in *.
    destruct (field_neqb _ _); auto.
    destruct (sid rec) as [s|]; auto. now rewrite Hsid.
Qed.

Lemma mentions_nonempty_sid_witness :
  Forall (fun s => truthy s = true)
         (mentions [At Ex.B; Plain nbsp; At Ex.A;
                    Plain (zwsp_newline ++ py "the dog chased the cat")]).
Proof.
  refine (proj1 (mentions_nonempty_sid lower_ascii
                   (Ex.loaded (mkRecord (Some [py "dog"]) None (Some Ex.G)
                               :: mkRecord (Some [py "dog"]) (Some []) (Some Ex.G)
                               :: Ex.cat_dog))
                   (Ex.text_event "the dog chased the cat" Ex.G) _)).
  reflexivity.
Defined.

(** ** [/member] *)

Section Upsert.

Variables s gid n : pystr.
Hypothesis n_trimmed : _norm_str n = n.

Lemma find_by_sid_group_nth (members : list MemberRecord) (i j : nat)
    (r : MemberRecord) :
  find_by_sid_group_from i members s gid = Some (j, r) ->
  (i <= j)%nat /\ nth_error members (j - i) = Some r /\ owned s gid r = true.
Proof.
  revert i. induction members as [|m members IH]; intros i; simpl;
    [discriminate|].
  destruct (field_eqb (sid m) s && field_eqb (group_id m) gid) eqn:E.
  - intros [= <- <-]. rewrite Nat.sub_diag. auto.
  - intros H. destruct (IH _ H) as [Hle [Hnth Hown]].
    replace (j - i)%nat with (S (j - S i)) by lia. auto with arith.
Qed.

Lemma find_by_sid_group_snoc (members : list MemberRecord) (i : nat)
    (r : MemberRecord) :
  find_by_sid_group_from i members s gid = None ->
  owned s gid r = true ->
  find_by_sid_group_from i (members ++ [r]) s gid
  = Some ((i + length members)%nat, r).
Proof.
  revert i. induction members as [|m members IH]; intros i; simpl.
  - intros _ Hown. unfold owned in Hown. rewrite Hown.
    now rewrite Nat.add_0_r.
  - destruct (field_eqb (sid m) s && field_eqb (group_id m) gid);
      [discriminate|].
    intros H Hown. rewrite (IH _ H Hown). do 2 f_equal. lia.
Qed.

Lemma find_by_sid_group_update (f : MemberRecord -> MemberRecord)
    (members : list MemberRecord) (i j : nat) (r : MemberRecord) :
  (forall x, sid (f x) = sid x /\ group_id (f x) = group_id x) ->
  find_by_sid_group_from i members s gid = Some (j, r) ->
  find_by_sid_group_from i (update_at (j - i) f members) s gid
  = Some (j, f r).
Proof.
  intros Hf. revert i. induction members as [|m members IH]; intros i; simpl;
    [discriminate|].
  destruct (field_eqb (sid m) s && field_eqb (group_id m) gid) eqn:E.
  - intros [= <- <-]. rewrite Nat.sub_diag. simpl.
    destruct (Hf m) as [-> ->]. now rewrite E.
  - intros H. destruct (find_by_sid_group_nth _ _ H) as [Hle _].
    replace (j - i)%nat with (S (j - S i)) by lia. simpl.
    rewrite E. now apply IH.
Qed.

Lemma update_at_fixed (f : MemberRecord -> MemberRecord)
    (members : list MemberRecord) (i : nat) (r : MemberRecord) :
  nth_error members i = Some r -> f r = r -> update_at i f members = members.
Proof.
  revert i. induction members as [|m members IH]; intros [|i]; simpl;
    try discriminate.
  - intros [= ->] ->. reflexivity.
  - intros H Hf. now rewrite (IH _ H Hf).
Qed.

Lemma add_nickname_fields (r : MemberRecord) :
  sid (add_nickname n r) = sid r /\ group_id (add_nickname n r) = group_id r.
Proof. unfold add_nickname. now destruct (forallb _ _). Qed.

Lemma add_nickname_eq (r : MemberRecord) :
  add_nickname n r
  = if forallb (fun x => negb (PyStr.eqb (_norm_str x) n)) (get_nickname r)
    then mkRecord (Some (get_nickname r ++ [n])) (sid r) (group_id r)
    else mkRecord (Some (get_nickname r)) (sid r) (group_id r).
Proof. reflexivity. Qed.

Lemma forallb_no_nick (l : list pystr) :
  forallb (fun x => negb (PyStr.eqb (_norm_str x) n)) l = true ->
  filter (fun x => PyStr.eqb (_norm_str x) n) l = [].
Proof.
  induction l as [|x l IH]; auto. cbn [forallb filter].
  intros H. apply andb_true_iff in H. destruct H as [Hx Hl].
  apply negb_true_iff in Hx. rewrite Hx. auto.
Qed.

Lemma forallb_some_nick (l : list pystr) :
  forallb (fun x => negb (PyStr.eqb (_norm_str x) n)) l = false ->
  (1 <= length (filter (fun x => PyStr.eqb (_norm_str x) n) l))%nat.
Proof.
  induction l as [|x l IH]; [discriminate|]. cbn [forallb filter].
  destruct (PyStr.eqb (_norm_str x) n); simpl; [lia | exact IH].
Qed.

Lemma add_nickname_idem (r : MemberRecord) :
  add_nickname n (add_nickname n r) = add_nickname n r.
Proof.
  rewrite (add_nickname_eq r).
  destruct (forallb _ (get_nickname r)) eqn:E; rewrite add_nickname_eq;
    cbn [get_nickname nickname sid group_id].
  - rewrite forallb_app, E. cbn [forallb].
    rewrite n_trimmed, eqb_refl. reflexivity.
  - now rewrite E.
Qed.

Lemma count_nick_add (r : MemberRecord) :
  (1 <= count_nick n (add_nickname n r))%nat
  /\ ((count_nick n r <= 1)%nat -> count_nick n (add_nickname n r) = 1%nat).
Proof.
  unfold count_nick. rewrite add_nickname_eq.
  destruct (forallb _ (get_nickname r)) eqn:E;
    cbn [get_nickname nickname sid group_id].
  - rewrite filter_app, length_app, (forallb_no_nick _ E).
    cbn [filter]. rewrite n_trimmed, eqb_refl. simpl. lia.
  - apply forallb_some_nick in E. fold (get_nickname r). lia.
Qed.

(** After the upsert the record of [(s, gid)] is found, and a second upsert
    would leave it as it is. *)
Lemma upsert_found (members : list MemberRecord) :
  exists i r,
    find_by_sid_group_from 0 (upsert members s gid n) s gid = Some (i, r)
    /\ add_nickname n r = r
    /\ (1 <= count_nick n r)%nat
    /\ ((forall i0 r0, find_by_sid_group_from 0 members s gid = Some (i0, r0)
                       -> (count_nick n r0 <= 1)%nat)
        -> count_nick n r = 1%nat).
Proof.
  unfold upsert.
  destruct (find_by_sid_group_from 0 members s gid) as [[i r]|] eqn:E.
  - exists i, (add_nickname n r).
    pose proof (@find_by_sid_group_update (add_nickname n) members 0 i r
                  add_nickname_fields E) as H.
    rewrite Nat.sub_0_r in H.
    split; [exact H|]. split; [apply add_nickname_idem|].
    split; [apply count_nick_add|].
    intros Hc. apply count_nick_add. eapply Hc; eauto.
  - exists (0 + length members)%nat, (mkRecord (Some [n]) (Some s) (Some gid)).
    split.
    + apply find_by_sid_group_snoc; auto.
      unfold owned. simpl. now rewrite !eqb_refl.
    + unfold add_nickname, count_nick, get_nickname. simpl.
      rewrite n_trimmed, eqb_refl. simpl. auto.
Qed.

Lemma upsert_idem (members : list MemberRecord) :
  upsert (upsert members s gid n) s gid n = upsert members s gid n.
Proof.
  destruct (upsert_found members) as [i [r [Hfind [Hfix _]]]].
  unfold upsert at 1. rewrite Hfind.
  destruct (find_by_sid_group_nth _ _ Hfind) as [_ [Hnth _]].
  rewrite Nat.sub_0_r in Hnth. eapply update_at_fixed; eauto.
Qed.

End Upsert.

(** What [/member] does when it is given a group, a mentioned member and a
    nickname that is not blank. *)
Lemma cmd_member_run (self : Plugin) (event : AstrMessageEvent)
    (nick s : pystr) :
  truthy (or_empty (get_group_id event)) = true ->
  _first_at_sid event = Some s ->
  truthy s = true ->
  truthy (_norm_str nick) = true ->
  let members :=
    upsert (store self) s (or_empty (get_group_id event)) (_norm_str nick) in
  cmd_member self event nick
  = (mkPlugin members (Some members),
     plain_result (Recorded (_norm_str nick) s)).
Proof.
  intros Hgid Hat Hs Hn. unfold cmd_member. cbv zeta.
  rewrite Hgid, Hat, Hs, Hn. reflexivity.
Qed.

(** C5: [/member] creates the record of [(sid, group)] when there is none
    and otherwise appends the trimmed nickname to the first such record only
    when no entry of it trim-equals the nickname; running it a second time
    with the same arguments changes nothing, and the record then found by
    [_find_by_sid_group] holds an entry that trim-equals the nickname,
    exactly one if the record did not already hold two. *)
Theorem member_upsert_idempotent (self : Plugin) (event : AstrMessageEvent)
    (nick s : pystr) :
  let gid := or_empty (get_group_id event) in
  let n := _norm_str nick in
  let once := fst (cmd_member self event nick) in
  let twice := fst (cmd_member once event nick) in
  truthy gid = true ->
  _first_at_sid event = Some s ->
  truthy s = true ->
  truthy n = true ->
  (_find_by_sid_group (_load self) s gid = None ->
   _members once = store self ++ [mkRecord (Some [n]) (Some s) (Some gid)])
  /\ (forall i rec,
        _find_by_sid_group (_load self) s gid = Some (i, rec) ->
        _members once = update_at i (add_nickname n) (store self)
        /\ _find_by_sid_group once s gid = Some (i, add_nickname n rec)
        /\ get_nickname (add_nickname n rec)
           = if forallb (fun x => negb (PyStr.eqb (_norm_str x) n))
                        (get_nickname rec)
             then get_nickname rec ++ [n]
             else get_nickname rec)
  /\ twice = once
  /\ (exists i rec,
        _find_by_sid_group twice s gid = Some (i, rec)
        /\ (1 <= count_nick n rec)%nat
        /\ ((forall i0 rec0,
               _find_by_sid_group (_load self) s gid = Some (i0, rec0) ->
               (count_nick n rec0 <= 1)%nat) ->
            count_nick n rec = 1%nat)).
Proof.
  intros gid n once twice Hgid Hat Hs Hn.
  assert (Htrim : _norm_str n = n) by apply strip_idem.
  assert (Honce : once = mkPlugin (upsert (store self) s gid n)
                                  (Some (upsert (store self) s gid n))).
  { unfold once. now rewrite (@cmd_member_run self event nick s). }
  assert (Htwice : twice = once).
  { unfold twice. rewrite (@cmd_member_run once event nick s) by assumption.
    fold gid n. rewrite Honce. unfold store, _load. cbn [members_file _members].
    now rewrite (upsert_idem s gid Htrim). }
  split; [|split; [|split; [exact Htwice|]]].
  - intros Hnone. rewrite Honce. cbn [_members]. unfold upsert.
    unfold _find_by_sid_group in Hnone. fold (store self) in Hnone.
    now rewrite Hnone.
  - intros i rec Hfind. unfold _find_by_sid_group in Hfind.
    fold (store self) in Hfind.
    rewrite Honce. unfold _find_by_sid_group. cbn [_members]. unfold upsert.
    rewrite Hfind. split; [reflexivity|]. split.
    + pose proof (@find_by_sid_group_update s gid (add_nickname n)
                    (store self) 0 i rec (add_nickname_fields n) Hfind) as H.
      now rewrite Nat.sub_0_r in H.
    + rewrite add_nickname_eq. now destruct (forallb _ _).
  - rewrite Htwice, Honce. unfold _find_by_sid_group. cbn [_members].
    destruct (upsert_found s gid Htrim (store self)) as [i [r [H1 [_ [H2 H3]]]]].
    exists i, r. split; [exact H1|]. split; [exact H2|].
    intros Hc. apply H3. intros i0 r0 H0. apply (Hc i0 r0).
    unfold _find_by_sid_group. exact H0.
Qed.

Lemma member_upsert_idempotent_witness :
  let event := mkEvent [Plain (py "/member  kitty "); At Ex.A] None
                       (Some Ex.G) in
  let self := Ex.loaded Ex.cat_dog in
  fst (cmd_member (fst (cmd_member self event (py " kitty "))) event
         (py " kitty "))
  = fst (cmd_member self event (py " kitty "))
  /\ _members (fst (cmd_member self event (py " kitty ")))
     = [mkRecord (Some [py "cat"; py "kitty"]) (Some Ex.A) (Some Ex.G);
        mkRecord (Some [py "dog"]) (Some Ex.B) (Some Ex.G)].
Proof.
  intros event self. split; [|reflexivity].
  refine (proj1 (proj2 (proj2
            (@member_upsert_idempotent self event (py " kitty ") Ex.A
               _ _ _ _)))); reflexivity.
Defined.

(** ** [/rm_nick] *)

Section RemoveNick.

Variables gid n : pystr.

Lemma drop_length (l : list pystr) : (length (drop_nick n l) <= length l)%nat.
Proof. apply filter_length_le. Qed.

Lemma drop_shrinks (l : list pystr) :
  existsb (fun x => PyStr.eqb n (_norm_str x)) l = true ->
  (length (drop_nick n l) < length l)%nat.
Proof.
  induction l as [|x l IH]; [discriminate|]. cbn [existsb]. unfold drop_nick.
  cbn [filter]. rewrite (eqb_sym n). fold (drop_nick n l).
  destruct (PyStr.eqb (_norm_str x) n); simpl.
  - intros _. pose proof (drop_length l). lia.
  - intros H. specialize (IH H). lia.
Qed.

Lemma drop_keeps (l : list pystr) :
  existsb (fun x => PyStr.eqb n (_norm_str x)) l = false -> drop_nick n l = l.
Proof.
  induction l as [|x l IH]; auto. cbn [existsb]. unfold drop_nick.
  cbn [filter]. rewrite (eqb_sym n). fold (drop_nick n l).
  destruct (PyStr.eqb (_norm_str x) n); simpl; [discriminate|].
  intros H. now rewrite IH.
Qed.

Lemma update_at_middle (f : MemberRecord -> MemberRecord)
    (pre rest : list MemberRecord) (m : MemberRecord) :
  update_at (length pre) f (pre ++ m :: rest) = pre ++ f m :: rest.
Proof. induction pre as [|p pre IH]; simpl; congruence. Qed.

(** The loop of [/rm_nick] over the records found in [rest], which sits in
    the list after [pre]. *)
Lemma rm_nick_loop (rest pre : list MemberRecord) (touched : nat) :
  fold_left (rm_nick_step n)
    (find_all_by_nickname_from (length pre) rest n (Some gid))
    (pre ++ rest, touched)
  = (pre ++ map (remove_nick gid n) rest,
     (touched
      + length (filter (fun r => in_group gid r && has_nickname n r) rest))%nat).
Proof.
  revert pre touched. induction rest as [|m rest IH]; intros pre touched.
  - simpl. now rewrite Nat.add_0_r.
  - cbn [find_all_by_nickname_from map filter]. unfold remove_nick at 1.
    unfold in_group at 1 2, field_neqb.
    assert (Hnext : forall m' t,
               fold_left (rm_nick_step n)
                 (find_all_by_nickname_from (S (length pre)) rest n (Some gid))
                 (pre ++ m' :: rest, t)
               = (pre ++ m' :: map (remove_nick gid n) rest,
                  (t + length (filter (fun r => in_group gid r
                                                && has_nickname n r) rest))%nat)).
    { intros m' t. specialize (IH (pre ++ [m']) t).
      rewrite length_app, Nat.add_1_r, <- !app_assoc in IH. exact IH. }
    destruct (field_eqb (group_id m) gid) eqn:Eg; cbn [negb andb];
      [|apply Hnext].
    destruct (has_nickname n m) eqn:En; [|apply Hnext].
    cbn [fold_left]. unfold rm_nick_step at 2.
    rewrite nth_error_app2, Nat.sub_diag by lia. cbn [nth_error].
    fold (drop_nick n (get_nickname m)).
    pose proof (drop_shrinks _ En) as Hlt.
    destruct (Nat.eqb_spec (length (drop_nick n (get_nickname m)))
                           (length (get_nickname m))) as [Heq|_]; [lia|].
    cbn [negb]. rewrite update_at_middle, Hnext. cbn [length].
    f_equal. lia.
Qed.

Lemma remove_nick_identity (r : MemberRecord) :
  identity (remove_nick gid n r) = identity r.
Proof. unfold remove_nick. now destruct (_ && _). Qed.

Lemma remove_nick_nicknames (r : MemberRecord) :
  in_group gid r = true ->
  get_nickname (remove_nick gid n r) = drop_nick n (get_nickname r).
Proof.
  intros Hg. unfold remove_nick. rewrite Hg. cbn [andb].
  destruct (has_nickname n r) eqn:E; [reflexivity|].
  symmetry. now apply drop_keeps.
Qed.

Lemma remove_nick_changed (r : MemberRecord) :
  negb (nicks_eqb (get_nickname r) (get_nickname (remove_nick gid n r)))
  = in_group gid r && has_nickname n r.
Proof.
  unfold remove_nick, nicks_eqb. destruct (in_group gid r && _) eqn:E.
  - apply andb_true_iff in E. destruct E as [_ E].
    apply drop_shrinks in E. cbn [get_nickname nickname].
    destruct (list_eq_dec _ _ _) as [Heq|]; auto.
    fold (drop_nick n (get_nickname r)) in Heq. rewrite <- Heq in E. lia.
  - destruct (list_eq_dec _ _ _); auto. congruence.
Qed.

Lemma changed_count_remove (members : list MemberRecord) :
  changed_count members (map (remove_nick gid n) members)
  = length (filter (fun r => in_group gid r && has_nickname n r) members).
Proof.
  unfold changed_count. induction members as [|r members IH]; auto.
  cbn [map combine filter fst snd]. rewrite remove_nick_changed.
  destruct (in_group gid r && has_nickname n r); simpl; now rewrite IH.
Qed.

End RemoveNick.

(** What [/rm_nick] does in a group. *)
Lemma cmd_rm_nick_run (self : Plugin) (event : AstrMessageEvent)
    (nick : pystr) :
  let gid := or_empty (get_group_id event) in
  let n := _norm_str nick in
  let after := map (remove_nick gid n) (store self) in
  let touched :=
    length (filter (fun r => in_group gid r && has_nickname n r)
                   (store self)) in
  truthy gid = true ->
  cmd_rm_nick self event nick
  = match touched with
    | S _ => (mkPlugin after (Some after),
              plain_result (NickRemoved n touched))
    | O => (mkPlugin after (members_file self), plain_result NotFound)
    end.
Proof.
  intros gid n after touched Hgid. unfold cmd_rm_nick. cbv zeta.
  fold gid n. rewrite Hgid. cbn [negb]. unfold _find_all_by_nickname.
  pose proof (rm_nick_loop gid n (store self) [] 0) as Hloop.
  cbn [length app Nat.add] in Hloop. unfold store in Hloop.
  rewrite Hloop. fold (store self). fold after touched.
  replace (members_file (_load self)) with (members_file self)
    by (unfold _load; now destruct (members_file self)).
  now destruct touched.
Qed.

(** C6: in a group, [/rm_nick] leaves the list of records as long as it was,
    with the same sid and group_id at every position; a record of another
    group is left as it is, a record of the group keeps exactly its entries
    that do not trim-equal the nickname (possibly none), and the reply
    reports the number of records whose nickname list changed, or that
    nothing was found when there is none. *)
Theorem rm_nick_keeps_records (self : Plugin) (event : AstrMessageEvent)
    (nick : pystr) :
  let gid := or_empty (get_group_id event) in
  let n := _norm_str nick in
  let before := store self in
  let after := _members (fst (cmd_rm_nick self event nick)) in
  truthy gid = true ->
  length after = length before
  /\ map identity after = map identity before
  /\ (forall i rec, nth_error before i = Some rec ->
                    in_group gid rec = false ->
                    nth_error after i = Some rec)
  /\ (forall i rec, nth_error before i = Some rec ->
                    in_group gid rec = true ->
                    exists rec',
                      nth_error after i = Some rec'
                      /\ get_nickname rec'
                         = filter (fun x => negb (PyStr.eqb (_norm_str x) n))
                                  (get_nickname rec))
  /\ snd (cmd_rm_nick self event nick)
     = match changed_count before after with
       | O => plain_result NotFound
       | S _ => plain_result (NickRemoved n (changed_count before after))
       end.
Proof.
  intros gid n before after Hgid.
  assert (Hafter : after = map (remove_nick gid n) before).
  { unfold after. rewrite cmd_rm_nick_run by assumption. cbv zeta.
    fold gid n before. now destruct (length _). }
  split; [rewrite Hafter; apply length_map|].
  split.
  { rewrite Hafter, map_map. apply map_ext. apply remove_nick_identity. }
  split.
  { intros i rec Hnth Hg. rewrite Hafter, nth_error_map, Hnth. simpl.
    unfold remove_nick. now rewrite Hg. }
  split.
  { intros i rec Hnth Hg. exists (remove_nick gid n rec). split.
    - now rewrite Hafter, nth_error_map, Hnth.
    - now apply remove_nick_nicknames. }
  rewrite Hafter, changed_count_remove.
  rewrite cmd_rm_nick_run by assumption. cbv zeta. fold gid n before.
  now destruct (length _).
Qed.

Lemma rm_nick_keeps_records_witness :
  let event := Ex.text_event "/rm_nick cat" Ex.G in
  let self := Ex.loaded (Ex.member ["cat"%string] Ex.C Ex.G1 :: Ex.cat_dog) in
  _members (fst (cmd_rm_nick self event (py "cat")))
  = [mkRecord (Some [py "cat"]) (Some Ex.C) (Some Ex.G1);
     mkRecord (Some []) (Some Ex.A) (Some Ex.G);
     mkRecord (Some [py "dog"]) (Some Ex.B) (Some Ex.G)]
  /\ snd (cmd_rm_nick self event (py "cat"))
     = plain_result (NickRemoved (py "cat") 1).
Proof.
  intros event self. split; [reflexivity|].
  refine (proj2 (proj2 (proj2 (proj2
            (@rm_nick_keeps_records self event (py "cat") _))))).
  reflexivity.
Defined.

(** ** Stored nicknames with capital letters *)

Lemma startswith_incl (p s : pystr) (c : N) :
  startswith p s = true -> In c p -> In c s.
Proof.
  revert s. induction p as [|a p IH]; intros [|b s]; simpl;
    try discriminate; try tauto.
  intros H. apply andb_true_iff in H. destruct H as [Hab Hp].
  apply N.eqb_eq in Hab. subst b. intros [->|Hc]; eauto.
Qed.

Lemma skipn_incl (n : nat) (s : pystr) (c : N) : In c (skipn n s) -> In c s.
Proof.
  intros H. rewrite <- (firstn_skipn n s). apply in_or_app. now right.
Qed.

(** When [find] succeeds, every character of the needle is in the text. *)
Lemma find_incl (s sub : pystr) (c : N) :
  find s sub <> (-1)%Z -> In c sub -> In c s.
Proof.
  unfold find. intros Hfound Hc.
  destruct (find_from_spec s sub 0) as [[H _]|[n [_ [_ [H _]]]]];
    [congruence|].
  eapply skipn_incl, startswith_incl; eauto.
Qed.

Lemma lower_ascii_no_upper (s : pystr) (c : N) :
  In c (lower_ascii s) -> is_upper c = false.
Proof.
  unfold lower_ascii. rewrite in_map_iff. intros [a [<- _]].
  unfold lower_ascii_char, is_upper.
  destruct (N.leb_spec 65 a), (N.leb_spec a 90); simpl;
    repeat match goal with
           | |- context [(?x <=? ?y)%N] => destruct (N.leb_spec x y)
           end; simpl; auto; lia.
Qed.

(** A stored nickname with an ASCII capital letter in its trimmed form
    matches no case-folded message. *)
Lemma capital_nickname_never_hits (msg raw : pystr) (c : N) :
  In c (_norm_str raw) -> is_upper c = true ->
  hit (lower_ascii msg) raw = None.
Proof.
  intros Hc Hup. unfold hit. cbv zeta.
  destruct (negb (truthy (_norm_str raw))); auto.
  destruct (Z.eqb_spec (find (lower_ascii msg) (_norm_str raw)) (-1)) as [|Hne];
    auto.
  pose proof (find_incl _ _ c Hne Hc) as Hin.
  apply lower_ascii_no_upper in Hin. congruence.
Qed.

(** ** Examples *)

Example strip_example : strip (py "  a b ") = py "a b".
Proof. reflexivity. Qed.

Example strip_nbsp_example : strip (160%N :: py "cat" ++ [12288%N]) = py "cat".
Proof. reflexivity. Qed.

Example find_example :
  find (py "the dog chased the cat") (py "cat") = 19%Z
  /\ find (py "the dog chased the cat") (py "dog") = 4%Z
  /\ find (py "the dog chased the cat") (py "cow") = (-1)%Z.
Proof. repeat split. Qed.

Example sub_example :
  AtCQ.sub_empty (py "[CQ:at,qq=1] hi [CQ:at,] x [CQ:at,qq=2]y[")
  = py " hi [CQ:at,] x y[".
Proof. vm_compute. reflexivity. Qed.

Example strip_at_fallback_example :
  _strip_at (mkEvent [At Ex.A] (Some (py "[CQ:at,qq=1001] cat ")) (Some Ex.G))
  = py "cat".
Proof. vm_compute. reflexivity. Qed.

Example tie_example :
  order_sids (first_pos Ex.G (py "kitty")
                [Ex.member ["tty"; "kit"]%string Ex.A Ex.G;
                 Ex.member ["kitty"]%string Ex.B Ex.G;
                 Ex.member ["itty"]%string Ex.C Ex.G])
  = [Ex.A; Ex.B; Ex.C].
Proof. vm_compute. reflexivity. Qed.

Example rm_member_example :
  cmd_rm_member (Ex.loaded Ex.cat_dog) (Ex.text_event "/rm_member cat" Ex.G)
    (py "cat")
  = (mkPlugin [Ex.member ["dog"]%string Ex.B Ex.G]
              (Some [Ex.member ["dog"]%string Ex.B Ex.G]),
     plain_result (MembersRemoved 1)).
Proof. vm_compute. reflexivity. Qed.

(** ** Triggers and case folding *)

Lemma startswith_map (f : N -> N) (p s : pystr) :
  startswith p s = true -> startswith (map f p) (map f s) = true.
Proof.
  revert s. induction p as [|a p IH]; intros [|b s]; simpl;
    try discriminate; auto.
  intros H. apply andb_true_iff in H. destruct H as [Hab Hp].
  apply N.eqb_eq in Hab. subst b. rewrite N.eqb_refl. simpl. auto.
Qed.

Lemma contains_map (f : N -> N) (p s : pystr) :
  contains p s = true -> contains (map f p) (map f s) = true.
Proof.
  induction s as [|c s IH]; cbn [contains map].
  - apply (startswith_map f p []).
  - intros H. apply orb_true_iff in H. apply orb_true_iff.
    destruct H as [H|H]; [left | right; auto].
    apply (startswith_map f p (c :: s) H).
Qed.

(** The triggers have no cased character: a text that contains one still
    contains it once its ASCII letters are case-folded. *)
Lemma lower_ascii_keeps_triggers (raw : pystr) :
  existsb (fun trigger => contains trigger raw) triggers = true ->
  existsb (fun trigger => contains trigger (lower_ascii raw)) triggers = true.
Proof.
  rewrite !existsb_exists. intros [t [Ht Hc]]. exists t. split; auto.
  assert (Hfix : lower_ascii t = t).
  { destruct Ht as [<-|[<-|[]]]; reflexivity. }
  rewrite <- Hfix. now apply contains_map.
Qed.

Example member_case_sensitive_example :
  _members (fst (cmd_member (Ex.loaded Ex.cat_dog)
                   (mkEvent [Plain (py "/member Cat"); At Ex.A] None
                            (Some Ex.G))
                   (py "Cat")))
  = [mkRecord (Some [py "cat"; py "Cat"]) (Some Ex.A) (Some Ex.G);
     mkRecord (Some [py "dog"]) (Some Ex.B) (Some Ex.G)].
Proof. vm_compute. reflexivity. Qed.

Example broadcast_raw_example :
  snd (on_group_message lower_ascii (Ex.loaded Ex.cat_dog)
         (mkEvent [Plain (py "OK " ++ [37117; 26469; 30475]%N)] None
                  (Some Ex.G)))
  = chain_result [At Ex.A; Plain nbsp; At Ex.B;
                  Plain (zwsp_newline ++ py "ok " ++ [37117; 26469; 30475]%N)].
Proof. vm_compute. reflexivity. Qed.

(** * Further properties of the helpers *)

(** ** [_norm_str] *)

Lemma lstrip_nil_iff (s : pystr) :
  lstrip s = [] <-> forallb isspace s = true.
Proof.
  induction s as [|c s IH]; simpl; [tauto|].
  destruct (isspace c); simpl; [exact IH|]. split; discriminate.
Qed.

Lemma forallb_isspace_lstrip (s : pystr) :
  forallb isspace (lstrip s) = forallb isspace s.
Proof.
  induction s as [|c s IH]; simpl; auto.
  destruct (isspace c) eqn:E; simpl; auto. now rewrite E.
Qed.

Lemma forallb_rev_eq (f : N -> bool) (l : pystr) :
  forallb f (rev l) = forallb f l.
Proof.
  induction l as [|c l IH]; simpl; auto.
  rewrite forallb_app, IH. simpl. rewrite andb_true_r. apply andb_comm.
Qed.

Lemma strip_nil_iff (s : pystr) : strip s = [] <-> forallb isspace s = true.
Proof.
  unfold strip, rstrip. rewrite <- forallb_isspace_lstrip.
  rewrite <- (forallb_rev_eq isspace (lstrip s)), <- lstrip_nil_iff.
  split; intros H.
  - apply (f_equal (@rev N)) in H. now rewrite rev_involutive in H.
  - now rewrite H.
Qed.

(** X1: [_norm_str] is idempotent, what it returns neither starts nor ends
    with white space, and it returns the empty string exactly for the
    strings made of white space only. *)
Theorem norm_str_trims (s : pystr) :
  _norm_str (_norm_str s) = _norm_str s
  /\ clean_head (_norm_str s) = true
  /\ clean_head (rev (_norm_str s)) = true
  /\ (_norm_str s = [] <-> forallb isspace s = true).
Proof.
  unfold _norm_str. split; [apply strip_idem|].
  split; [apply rstrip_clean, lstrip_clean|].
  split; [|apply strip_nil_iff].
  unfold strip, rstrip. rewrite rev_involutive. apply lstrip_clean.
Qed.

(** ** [_strip_at] *)

(** X2: the text [_strip_at] returns is trimmed, and a mention segment (or
    any segment that is not text) in the chain does not change it. *)
Theorem strip_at_ignores_mentions (pre post : list Comp) (seg : Comp)
    (m g : option pystr) :
  is_plain seg = false ->
  _strip_at (mkEvent (pre ++ seg :: post) m g)
  = _strip_at (mkEvent (pre ++ post) m g)
  /\ _norm_str (_strip_at (mkEvent (pre ++ seg :: post) m g))
     = _strip_at (mkEvent (pre ++ seg :: post) m g).
Proof.
  intros Hseg. split.
  - unfold _strip_at. cbn [get_messages message_str].
    rewrite !flat_map_app. cbn [flat_map].
    destruct seg; [discriminate| |]; reflexivity.
  - unfold _strip_at, _norm_str.
    destruct (flat_map _ _); apply strip_idem.
Qed.

Lemma strip_at_ignores_mentions_witness :
  _strip_at (mkEvent [At Ex.A; Plain (py " hi "); OtherComp; Plain (py "cat ")]
               None (Some Ex.G))
  = _strip_at (mkEvent [At Ex.A; Plain (py " hi "); Plain (py "cat ")]
                 None (Some Ex.G))
  /\ _strip_at (mkEvent [At Ex.A; Plain (py " hi "); Plain (py "cat ")]
                  None (Some Ex.G)) = py "hi cat".
Proof.
  split; [|reflexivity].
  apply (proj1 (@strip_at_ignores_mentions [At Ex.A; Plain (py " hi ")]
                  [Plain (py "cat ")] OtherComp None (Some Ex.G) eq_refl)).
Defined.

(** ** The mention markup *)

Module AtCQFacts.
Import AtCQ.

Lemma sub_loop_skipn (n : nat) (s : pystr) :
  sub_loop n s = sub_loop 0 (skipn n s).
Proof.
  revert n. induction s as [|c s IH]; intros [|n]; auto.
  cbn [sub_loop skipn]. apply IH.
Qed.

Lemma index_rbracket_none (s : pystr) :
  no_rbracket s = true -> index_rbracket s = None.
Proof.
  unfold no_rbracket. induction s as [|c s IH]; auto.
  cbn [forallb index_rbracket]. unfold rbracket.
  destruct (c =? 93)%N; [discriminate|]. simpl. intros H. now rewrite IH.
Qed.

Lemma index_rbracket_body (body b : pystr) :
  no_rbracket body = true ->
  index_rbracket (body ++ 93%N :: b) = Some (length body).
Proof.
  unfold no_rbracket. induction body as [|c body IH]; auto.
  cbn [forallb app index_rbracket length]. unfold rbracket.
  destruct (c =? 93)%N; [discriminate|]. simpl. intros H. now rewrite IH.
Qed.

Lemma no_rbracket_skipn (n : nat) (s : pystr) :
  no_rbracket s = true -> no_rbracket (skipn n s) = true.
Proof.
  unfold no_rbracket. rewrite !forallb_forall. intros H c Hc. apply H.
  rewrite <- (firstn_skipn n s). apply in_or_app. now right.
Qed.

Lemma match_len_not_lbracket (c : N) (s : pystr) :
  (c =? 91)%N = false -> match_len (c :: s) = None.
Proof.
  intros H. unfold match_len.
  change (py "[CQ:at,") with [91; 67; 81; 58; 97; 116; 44]%N.
  cbn [startswith]. rewrite N.eqb_sym, H. reflexivity.
Qed.

Lemma sub_loop_no_lbracket (a t : pystr) :
  no_lbracket a = true -> sub_loop 0 (a ++ t) = a ++ sub_loop 0 t.
Proof.
  unfold no_lbracket. induction a as [|c a IH]; auto.
  cbn [forallb app]. intros H. apply andb_true_iff in H.
  destruct H as [Hc Ha]. apply negb_true_iff in Hc.
  cbn [sub_loop]. rewrite match_len_not_lbracket by assumption.
  now rewrite IH.
Qed.

Lemma sub_loop_no_rbracket (s : pystr) :
  no_rbracket s = true -> sub_loop 0 s = s.
Proof.
  induction s as [|c s IH]; auto. intros H.
  assert (Hs : no_rbracket s = true).
  { unfold no_rbracket in *. cbn [forallb] in H.
    now apply andb_true_iff in H. }
  cbn [sub_loop]. unfold match_len.
  destruct (startswith _ _).
  - rewrite index_rbracket_none by now apply no_rbracket_skipn.
    now rewrite IH.
  - now rewrite IH.
Qed.

Lemma sub_loop_markup (body b : pystr) :
  body <> [] -> no_rbracket body = true ->
  sub_loop 0 (py "[CQ:at," ++ body ++ 93%N :: b) = sub_loop 0 b.
Proof.
  intros Hne Hbody.
  change (py "[CQ:at,") with [91; 67; 81; 58; 97; 116; 44]%N.
  cbn [app sub_loop]. unfold match_len.
  change (py "[CQ:at,") with [91; 67; 81; 58; 97; 116; 44]%N.
  cbn [startswith skipn]. rewrite !N.eqb_refl. cbn [andb].
  rewrite index_rbracket_body by assumption.
  destruct body as [|c body]; [congruence|]. cbn [length].
  replace (7 + S (length body) + 1)%nat
    with (S (6 + S (length body) + 1))%nat by lia.
  cbn [Nat.add sub_loop].
  change (c :: body ++ 93%N :: b) with ((c :: body) ++ 93%N :: b).
  rewrite sub_loop_skipn. f_equal.
  replace (S (length body + 1)) with (length ((c :: body) ++ [93%N]))
    by (rewrite length_app; simpl; lia).
  replace ((c :: body) ++ 93%N :: b) with (((c :: body) ++ [93%N]) ++ b)
    by now rewrite <- app_assoc.
  now rewrite skipn_app, skipn_all, Nat.sub_diag.
Qed.

Lemma sub_loop_length (n : nat) (s : pystr) :
  (length (sub_loop n s) <= length s)%nat.
Proof.
  revert n. induction s as [|c s IH]; intros n; simpl; auto.
  destruct n as [|n].
  - destruct (match_len (c :: s)) as [[|k]|]; simpl;
      try (specialize (IH 0%nat); lia). specialize (IH k). lia.
  - specialize (IH n). lia.
Qed.

End AtCQFacts.

(** X3: substituting the markup pattern by the empty string removes a
    markup ["[CQ:at,"], a non-empty body without [']'] and [']'] that
    follows text without ['['], leaves a markup with an empty body in
    place, leaves a string without [']'] as it is, and never makes a string
    longer. *)
Theorem sub_removes_markup (a body b : pystr) :
  no_lbracket a = true ->
  no_rbracket body = true ->
  (body <> [] ->
   AtCQ.sub_empty (a ++ py "[CQ:at," ++ body ++ 93%N :: b)
   = a ++ AtCQ.sub_empty b)
  /\ AtCQ.sub_empty (a ++ py "[CQ:at,]" ++ b)
     = a ++ py "[CQ:at,]" ++ AtCQ.sub_empty b
  /\ AtCQ.sub_empty body = body
  /\ (length (AtCQ.sub_empty b) <= length b)%nat.
Proof.
  intros Ha Hbody. unfold AtCQ.sub_empty.
  split; [|split; [|split]].
  - intros Hne. rewrite AtCQFacts.sub_loop_no_lbracket by assumption.
    now rewrite AtCQFacts.sub_loop_markup.
  - rewrite AtCQFacts.sub_loop_no_lbracket by assumption. reflexivity.
  - now apply AtCQFacts.sub_loop_no_rbracket.
  - apply AtCQFacts.sub_loop_length.
Qed.

Lemma sub_removes_markup_witness :
  AtCQ.sub_empty (py "hi " ++ py "[CQ:at," ++ py "qq=1001" ++ 93%N :: py " cat")
  = py "hi " ++ AtCQ.sub_empty (py " cat").
Proof.
  apply (proj1 (@sub_removes_markup (py "hi ") (py "qq=1001") (py " cat")
                  eq_refl eq_refl)).
  discriminate.
Defined.

Example sub_nested_example :
  AtCQ.sub_empty (py "a[CQ:at,[CQ:at,x]y]") = py "ay]"
  /\ AtCQ.sub_empty (py "[CQ:[CQ:at,x]at,y]") = py "[CQ:at,y]"
  /\ AtCQ.sub_empty (py "no close [CQ:at,qq") = py "no close [CQ:at,qq".
Proof. vm_compute. repeat split. Qed.

(** ** [_first_at_sid] *)

(** X4: [_first_at_sid] returns the member of the first mention segment of
    the chain, and [None] exactly when the chain has no mention segment. *)
Theorem first_at_sid_first_mention (event : AstrMessageEvent) :
  (_first_at_sid event = None
   <-> forallb (fun seg => negb (is_at seg)) (get_messages event) = true)
  /\ (forall q,
        _first_at_sid event = Some q
        <-> exists pre post,
              get_messages event = pre ++ At q :: post
              /\ forallb (fun seg => negb (is_at seg)) pre = true).
Proof.
  unfold _first_at_sid. induction (get_messages event) as [|seg l [IH1 IH2]].
  - split; [simpl; tauto|]. intros q. split; [discriminate|].
    intros [[|? ?] [post [H _]]]; discriminate.
  - split.
    + destruct seg; simpl; auto. split; discriminate.
    + intros q. destruct seg as [t|q'|]; cbn [_first_at_sid_in].
      * rewrite IH2. split.
        -- intros [pre [post [-> Hpre]]]. now exists (Plain t :: pre), post.
        -- intros [[|x pre] [post [H Hpre]]]; [discriminate|].
           injection H as <- ->. simpl in Hpre. now exists pre, post.
      * split.
        -- intros [= ->]. now exists [], l.
        -- intros [[|x pre] [post [H Hpre]]].
           ++ now injection H as ->.
           ++ injection H as <- _. discriminate.
      * rewrite IH2. split.
        -- intros [pre [post [-> Hpre]]]. now exists (OtherComp :: pre), post.
        -- intros [[|x pre] [post [H Hpre]]]; [discriminate|].
           injection H as <- ->. simpl in Hpre. now exists pre, post.
Qed.

(** ** [_find_by_sid_group] and [_find_all_by_nickname] *)

Lemma find_by_sid_group_from_spec (s gid : pystr)
    (members : list MemberRecord) (i : nat) :
  match find_by_sid_group_from i members s gid with
  | None => forallb (fun r => negb (owned s gid r)) members = true
  | Some (j, r) =>
      (i <= j)%nat /\ nth_error members (j - i) = Some r
      /\ owned s gid r = true
      /\ forallb (fun r => negb (owned s gid r)) (firstn (j - i) members)
         = true
  end.
Proof.
  revert i. induction members as [|m members IH]; intros i; simpl; auto.
  fold (owned s gid m). destruct (owned s gid m) eqn:E.
  - rewrite Nat.sub_diag. simpl. auto.
  - specialize (IH (S i)).
    destruct (find_by_sid_group_from (S i) members s gid) as [[j r]|].
    + destruct IH as [Hle [Hnth [Hown Hpre]]].
      replace (j - i)%nat with (S (j - S i)) by lia. simpl. rewrite E.
      simpl. repeat split; auto. lia.
    + simpl. exact IH.
Qed.

(** X5: [_find_by_sid_group] returns the first record of the list whose sid
    and group_id are the given ones, and [None] exactly when the list has no
    such record. *)
Theorem find_by_sid_group_first (self : Plugin) (s gid : pystr) :
  (_find_by_sid_group self s gid = None
   <-> forallb (fun r => negb (owned s gid r)) (_members self) = true)
  /\ (forall i r,
        _find_by_sid_group self s gid = Some (i, r)
        <-> nth_error (_members self) i = Some r
            /\ sid r = Some s /\ group_id r = Some gid
            /\ forallb (fun r => negb (owned s gid r))
                       (firstn i (_members self)) = true).
Proof.
  unfold _find_by_sid_group.
  pose proof (find_by_sid_group_from_spec s gid (_members self) 0) as H.
  assert (Hown : forall r, owned s gid r = true
                           <-> sid r = Some s /\ group_id r = Some gid).
  { intros r. unfold owned, field_eqb. rewrite andb_true_iff.
    destruct (sid r) as [a|], (group_id r) as [b|];
      rewrite ?eqb_eq; split; intros [H1 H2]; try discriminate;
      split; congruence. }
  destruct (find_by_sid_group_from 0 (_members self) s gid) as [[j r]|].
  - destruct H as [_ [Hnth [Ho Hpre]]]. rewrite Nat.sub_0_r in *.
    split; [split; [discriminate|]|].
    + intros Hall. exfalso. rewrite forallb_forall in Hall.
      apply nth_error_In in Hnth. specialize (Hall _ Hnth).
      rewrite Ho in Hall. discriminate.
    + intros i r'. split.
      * intros [= <- <-]. apply Hown in Ho. tauto.
      * intros [Hi [Hs [Hg Hpre']]].
        assert (Ho' : owned s gid r' = true) by (apply Hown; tauto).
        assert (i = j).
        { destruct (Nat.lt_trichotomy i j) as [Hlt|[Heq|Hgt]]; auto.
          - exfalso. rewrite forallb_forall in Hpre.
            assert (Hin : In r' (firstn j (_members self))).
            { apply (nth_error_In _ i). rewrite nth_error_firstn.
              destruct (Nat.ltb_spec i j); [exact Hi | lia]. }
            specialize (Hpre _ Hin). rewrite Ho' in Hpre. discriminate.
          - exfalso. rewrite forallb_forall in Hpre'.
            assert (Hin : In r (firstn i (_members self))).
            { apply (nth_error_In _ j). rewrite nth_error_firstn.
              destruct (Nat.ltb_spec j i); [exact Hnth | lia]. }
            specialize (Hpre' _ Hin). rewrite Ho in Hpre'. discriminate. }
        subst i. congruence.
  - split; [tauto|]. intros i r. split; [discriminate|].
    intros [Hi [Hs [Hg _]]]. exfalso. rewrite forallb_forall in H.
    apply nth_error_In in Hi. specialize (H _ Hi).
    assert (Ho : owned s gid r = true) by (apply Hown; tauto).
    rewrite Ho in H. discriminate.
Qed.

Lemma find_all_by_nickname_from_spec (n : pystr) (g : option pystr)
    (members : list MemberRecord) (i j : nat) :
  In j (find_all_by_nickname_from i members n g)
  <-> (i <= j)%nat
      /\ exists r, nth_error members (j - i) = Some r
                   /\ group_matches g r = true /\ has_nickname n r = true.
Proof.
  revert i. induction members as [|m members IH]; intros i.
  - simpl. split; [tauto|]. intros [_ [r [H _]]].
    destruct (j - i)%nat; discriminate.
  - cbn [find_all_by_nickname_from].
    assert (Hskip : (match g with
                     | Some gid => field_neqb (group_id m) gid
                     | None => false
                     end) = negb (group_matches g m)).
    { destruct g; reflexivity. }
    rewrite Hskip.
    assert (Htail : In j (find_all_by_nickname_from (S i) members n g)
                    <-> (i < j)%nat
                        /\ exists r, nth_error (m :: members) (j - i) = Some r
                                     /\ group_matches g r = true
                                     /\ has_nickname n r = true).
    { rewrite IH. split; intros [Hle [r Hr]]; (split; [lia|]); exists r.
      - replace (j - i)%nat with (S (j - S i)) by lia. exact Hr.
      - replace (j - i)%nat with (S (j - S i)) in Hr by lia. exact Hr. }
    assert (Hhead : forall r, nth_error (m :: members) (i - i) = Some r
                              <-> r = m).
    { intros r. rewrite Nat.sub_diag. simpl. split; congruence. }
    destruct (group_matches g m) eqn:Eg; cbn [negb];
      [destruct (has_nickname n m) eqn:En|]; cbn [In]; rewrite ?Htail.
    + split.
      * intros [<-|[Hlt Hr]]; [|split; [lia | exact Hr]].
        split; auto. exists m. rewrite Nat.sub_diag. auto.
      * intros [Hle Hr]. destruct (Nat.eq_dec i j) as [->|Hne]; auto.
        right. split; [lia | exact Hr].
    + split.
      * intros [Hlt Hr]. split; [lia | exact Hr].
      * intros [Hle [r [Hr [Hg Hn]]]]. split; [|now exists r].
        destruct (Nat.eq_dec i j) as [->|Hne]; [|lia].
        apply Hhead in Hr. subst r. congruence.
    + split.
      * intros [Hlt Hr]. split; [lia | exact Hr].
      * intros [Hle [r [Hr [Hg Hn]]]]. split; [|now exists r].
        destruct (Nat.eq_dec i j) as [->|Hne]; [|lia].
        apply Hhead in Hr. subst r. congruence.
Qed.

Lemma find_all_by_nickname_from_sorted (n : pystr) (g : option pystr)
    (members : list MemberRecord) (i : nat) :
  StronglySorted lt (find_all_by_nickname_from i members n g).
Proof.
  revert i. induction members as [|m members IH]; intros i;
    [constructor|].
  cbn [find_all_by_nickname_from].
  destruct (match g with Some _ => _ | None => _ end); [apply IH|].
  destruct (has_nickname n m); [|apply IH].
  constructor; [apply IH|]. apply Forall_forall. intros j Hj.
  apply find_all_by_nickname_from_spec in Hj. lia.
Qed.

(** X6: [_find_all_by_nickname] returns, in increasing order and without
    repetition, exactly the positions of the records that hold an entry
    whose trimmed form is the nickname and, when a group is given, whose
    group_id is that group; without a group it looks at every record. *)
Theorem find_all_by_nickname_complete (self : Plugin) (n : pystr)
    (g : option pystr) :
  StronglySorted lt (_find_all_by_nickname self n g)
  /\ (forall i,
        In i (_find_all_by_nickname self n g)
        <-> exists r, nth_error (_members self) i = Some r
                      /\ group_matches g r = true
                      /\ has_nickname n r = true).
Proof.
  unfold _find_all_by_nickname.
  split; [apply find_all_by_nickname_from_sorted|].
  intros i. rewrite find_all_by_nickname_from_spec, Nat.sub_0_r.
  split; [tauto|]. intros H. split; [lia | exact H].
Qed.

(** * Further properties of the commands *)

(** ** What the reply of [/member] says *)

Lemma load_file (self : Plugin) : members_file (_load self) = members_file self.
Proof. unfold _load. now destruct (members_file self). Qed.

Lemma truthy_false (s : pystr) : truthy s = false <-> s = [].
Proof. destruct s; simpl; split; congruence. Qed.

Lemma truthy_true (s : pystr) : truthy s = true <-> s <> [].
Proof. destruct s; simpl; split; congruence. Qed.

(** X7: [/member] checks the group, then the mention, then the nickname;
    its reply tells which check failed, and in each of these cases the
    plugin is left as loaded and the backing file is not written.  Only the
    reply "recorded" goes with a write, and then the file holds the list in
    memory and the reply carries the trimmed nickname and the mentioned
    member. *)
Theorem member_reply_cases (self : Plugin) (event : AstrMessageEvent)
    (nick : pystr) :
  let gid := or_empty (get_group_id event) in
  let after := fst (cmd_member self event nick) in
  match snd (cmd_member self event nick) with
  | plain_result GroupOnly => gid = [] /\ after = _load self
  | plain_result NeedAt =>
      gid <> []
      /\ (_first_at_sid event = None \/ _first_at_sid event = Some [])
      /\ after = _load self
  | plain_result BadNickname =>
      gid <> []
      /\ (exists s, _first_at_sid event = Some s /\ s <> [])
      /\ forallb isspace nick = true
      /\ after = _load self
  | plain_result (Recorded n s) =>
      gid <> [] /\ _first_at_sid event = Some s /\ s <> []
      /\ n = _norm_str nick /\ n <> []
      /\ members_file after = Some (_members after)
  | _ => False
  end.
Proof.
  intros gid after. unfold after, cmd_member. cbv zeta. fold gid.
  destruct (truthy gid) eqn:Eg; cbn [negb fst snd].
  2: { split; auto. now apply truthy_false. }
  apply truthy_true in Eg.
  destruct (_first_at_sid event) as [s|] eqn:Eat; cbn [fst snd]; auto.
  destruct (truthy s) eqn:Es; cbn [negb fst snd].
  2: { apply truthy_false in Es. subst s. auto. }
  apply truthy_true in Es.
  destruct (truthy (_norm_str nick)) eqn:En; cbn [negb fst snd].
  - apply truthy_true in En. repeat split; auto.
  - apply truthy_false in En. repeat split; auto.
    + now exists s.
    + now apply strip_nil_iff.
Qed.

(** ** What [/member] leaves alone *)

Lemma update_at_nth (f : MemberRecord -> MemberRecord)
    (members : list MemberRecord) (i j : nat) :
  nth_error (update_at i f members) j
  = if (i =? j)%nat then option_map f (nth_error members j)
    else nth_error members j.
Proof.
  revert i j. induction members as [|m members IH]; intros [|i] [|j];
    simpl; auto.
  now destruct (i =? j)%nat.
Qed.

Lemma update_at_identity (f : MemberRecord -> MemberRecord)
    (members : list MemberRecord) (i : nat) :
  (forall r, identity (f r) = identity r) ->
  map identity (update_at i f members) = map identity members.
Proof.
  intros Hf. revert i. induction members as [|m members IH]; intros [|i];
    simpl; auto; now rewrite ?Hf, ?IH.
Qed.

Lemma add_nickname_identity (n : pystr) (r : MemberRecord) :
  identity (add_nickname n r) = identity r.
Proof. unfold identity. now destruct (add_nickname_fields n r) as [-> ->]. Qed.

Lemma add_nickname_incl (n : pystr) (r : MemberRecord) :
  incl (get_nickname r) (get_nickname (add_nickname n r)).
Proof.
  rewrite add_nickname_eq. destruct (forallb _ _);
    cbn [get_nickname nickname]; fold (get_nickname r).
  - apply incl_appl, incl_refl.
  - apply incl_refl.
Qed.

(** X8: a successful [/member] for member [s] leaves every record that is
    not a record of [s] in the group as it is, removes no nickname from any
    record, and keeps the sid and group_id of every record; the list grows
    by one record, for [s] in the group, exactly when [s] had none. *)
Theorem member_frame (self : Plugin) (event : AstrMessageEvent)
    (nick s : pystr) :
  let gid := or_empty (get_group_id event) in
  let before := store self in
  let after := _members (fst (cmd_member self event nick)) in
  truthy gid = true ->
  _first_at_sid event = Some s ->
  truthy s = true ->
  truthy (_norm_str nick) = true ->
  (forall i r, nth_error before i = Some r ->
               exists r', nth_error after i = Some r'
                          /\ identity r' = identity r
                          /\ incl (get_nickname r) (get_nickname r')
                          /\ (owned s gid r = false -> r' = r))
  /\ map identity after
     = map identity before
       ++ (if existsb (owned s gid) before then []
           else [(Some s, Some gid)]).
Proof.
  intros gid before after Hgid Hat Hs Hn.
  assert (Hafter : after = upsert before s gid (_norm_str nick)).
  { unfold after. now rewrite (@cmd_member_run self event nick s). }
  rewrite Hafter. unfold upsert.
  pose proof (find_by_sid_group_from_spec s gid before 0) as Hfind.
  destruct (find_by_sid_group_from 0 before s gid) as [[j r0]|].
  - destruct Hfind as [_ [Hnth [Hown _]]]. rewrite Nat.sub_0_r in Hnth.
    split.
    + intros i r Hi. rewrite update_at_nth.
      destruct (Nat.eqb_spec j i) as [->|Hne].
      * rewrite Hi. cbn [option_map]. eexists. split; [reflexivity|].
        split; [apply add_nickname_identity|].
        split; [apply add_nickname_incl|].
        intros Hno. congruence.
      * exists r. repeat split; auto. apply incl_refl.
    + rewrite update_at_identity by apply add_nickname_identity.
      assert (He : existsb (owned s gid) before = true).
      { apply existsb_exists. exists r0. split; auto.
        eapply nth_error_In; eauto. }
      now rewrite He, app_nil_r.
  - split.
    + intros i r Hi. exists r. rewrite nth_error_app1.
      * repeat split; auto. apply incl_refl.
      * apply nth_error_Some. congruence.
    + rewrite map_app. cbn [map]. unfold identity at 2. cbn [sid group_id].
      assert (He : existsb (owned s gid) before = false).
      { apply not_true_is_false. intros He. apply existsb_exists in He.
        destruct He as [r [Hr Ho]]. rewrite forallb_forall in Hfind.
        specialize (Hfind _ Hr). rewrite Ho in Hfind. discriminate. }
      now rewrite He.
Qed.

Lemma member_frame_witness :
  let event := mkEvent [Plain (py "/member pup"); At Ex.B] None (Some Ex.G) in
  let self := Ex.loaded Ex.cat_dog in
  map identity (_members (fst (cmd_member self event (py "pup"))))
  = map identity Ex.cat_dog.
Proof.
  intros event self.
  refine (proj2 (@member_frame self event (py "pup") Ex.B _ _ _ _));
    reflexivity.
Defined.

(** ** [/rm_member] *)

Lemma filter_length_split (A : Type) (f : A -> bool) (l : list A) :
  (length l - length (filter (fun x => negb (f x)) l))%nat
  = length (filter f l).
Proof.
  induction l as [|x l IH]; auto. cbn [filter length].
  pose proof (filter_length_le (fun x => negb (f x)) l) as Hle.
  destruct (f x); cbn [negb length]; [|exact IH].
  rewrite <- IH. lia.
Qed.

Lemma filter_none_all (A : Type) (f : A -> bool) (l : list A) :
  length (filter f l) = 0%nat -> filter (fun x => negb (f x)) l = l.
Proof.
  induction l as [|x l IH]; auto. cbn [filter].
  destruct (f x); cbn [negb length]; [discriminate|].
  intros H. now rewrite IH.
Qed.

Lemma filter_none_forallb (A : Type) (f : A -> bool) (l : list A) :
  length (filter f l) = 0%nat <-> forallb (fun x => negb (f x)) l = true.
Proof.
  induction l as [|x l IH]; cbn [filter forallb length]; [tauto|].
  destruct (f x); cbn [negb andb length]; [split; discriminate | exact IH].
Qed.

Lemma has_nickname_flip (n : pystr) (rec : MemberRecord) :
  existsb (fun x => PyStr.eqb (_norm_str x) n) (get_nickname rec)
  = has_nickname n rec.
Proof.
  unfold has_nickname. induction (get_nickname rec) as [|x l IH]; auto.
  cbn [existsb]. now rewrite IH, (eqb_sym n).
Qed.

(** What [/rm_member] does in a group. *)
Lemma cmd_rm_member_run (self : Plugin) (event : AstrMessageEvent)
    (nick : pystr) :
  let gid := or_empty (get_group_id event) in
  let n := _norm_str nick in
  let after := filter (fun r => negb (matches_nick gid n r)) (store self) in
  let removed := length (filter (matches_nick gid n) (store self)) in
  truthy gid = true ->
  cmd_rm_member self event nick
  = match removed with
    | S _ => (mkPlugin after (Some after),
              plain_result (MembersRemoved removed))
    | O => (_load self, plain_result NotFound)
    end.
Proof.
  intros gid n after removed Hgid. unfold cmd_rm_member. cbv zeta.
  fold gid n. rewrite Hgid. cbn [negb]. fold (store self).
  assert (Hfilter :
            filter (fun rec =>
                      negb (field_eqb (group_id rec) gid
                            && existsb (fun x => PyStr.eqb (_norm_str x) n)
                                       (get_nickname rec)))
                   (store self) = after).
  { unfold after. apply filter_ext. intros r.
    unfold matches_nick, in_group. now rewrite has_nickname_flip. }
  rewrite Hfilter. unfold after at 1 2.
  rewrite filter_length_split. fold removed. fold after.
  destruct removed eqn:E.
  - unfold after, removed in *. rewrite (filter_none_all _ _ E).
    rewrite load_file. clear. destruct self as [m [f|]]; reflexivity.
  - rewrite load_file. unfold _save. cbn [_members].
    subst after. rewrite (filter_length_split (matches_nick gid n)).
    fold removed. now rewrite E.
Qed.

Lemma filter_other_groups (gid n : pystr) (l : list MemberRecord) :
  filter (fun r => negb (in_group gid r))
         (filter (fun r => negb (matches_nick gid n r)) l)
  = filter (fun r => negb (in_group gid r)) l.
Proof.
  induction l as [|r l IH]; auto. cbn [filter]. unfold matches_nick at 1.
  destruct (in_group gid r) eqn:Eg; cbn [andb negb].
  - destruct (has_nickname n r); cbn [negb filter]; rewrite ?Eg; auto.
  - cbn [filter]. rewrite Eg. cbn [negb]. now rewrite IH.
Qed.

(** X9: in a group, [/rm_member] keeps exactly the records that are not
    records of the group holding the nickname, in their order, and deletes
    the others whole; it replies with the number of deleted records, or
    "not found" when there is none, and only in the first case writes the
    file.  Outside a group it changes nothing. *)
Theorem rm_member_reply_cases (self : Plugin) (event : AstrMessageEvent)
    (nick : pystr) :
  let gid := or_empty (get_group_id event) in
  let n := _norm_str nick in
  let after := fst (cmd_rm_member self event nick) in
  match snd (cmd_rm_member self event nick) with
  | plain_result GroupOnly => gid = [] /\ after = _load self
  | plain_result NotFound =>
      gid <> []
      /\ forallb (fun r => negb (matches_nick gid n r)) (store self) = true
      /\ after = _load self
  | plain_result (MembersRemoved k) =>
      gid <> []
      /\ k = length (filter (matches_nick gid n) (store self))
      /\ (0 < k)%nat
      /\ _members after
         = filter (fun r => negb (matches_nick gid n r)) (store self)
      /\ filter (fun r => negb (in_group gid r)) (_members after)
         = filter (fun r => negb (in_group gid r)) (store self)
      /\ length (_members after) = (length (store self) - k)%nat
      /\ members_file after = Some (_members after)
  | _ => False
  end.
Proof.
  intros gid n after. unfold after.
  destruct (truthy gid) eqn:Eg.
  - rewrite cmd_rm_member_run by assumption. cbv zeta. fold gid n.
    apply truthy_true in Eg.
    destruct (length (filter (matches_nick gid n) (store self))) as [|k] eqn:E;
      cbn [fst snd _members members_file].
    + split; auto. split; auto. now apply filter_none_forallb.
    + split; auto. split; auto. split; [lia|]. split; auto.
      split; [|split; auto].
      * apply filter_other_groups.
      * pose proof (filter_length_split (matches_nick gid n) (store self)).
        pose proof (filter_length_le (fun r => negb (matches_nick gid n r))
                      (store self)). lia.
  - unfold cmd_rm_member. cbv zeta. fold gid. rewrite Eg. cbn [negb fst snd].
    split; auto. now apply truthy_false.
Qed.

(** ** What the reply of [/rm_nick] says, and a second [/rm_nick] *)

Lemma load_idem (self : Plugin) : _load (_load self) = _load self.
Proof. destruct self as [m [f|]]; reflexivity. Qed.

Lemma load_store (self : Plugin) :
  mkPlugin (store self) (members_file self) = _load self.
Proof. destruct self as [m [f|]]; reflexivity. Qed.

Lemma remove_nick_none (gid n : pystr) (l : list MemberRecord) :
  forallb (fun r => negb (matches_nick gid n r)) l = true ->
  map (remove_nick gid n) l = l.
Proof.
  induction l as [|r l IH]; auto. cbn [forallb map]. intros H.
  apply andb_true_iff in H. destruct H as [Hr Hl].
  apply negb_true_iff in Hr. rewrite (IH Hl). f_equal.
  unfold remove_nick. fold (matches_nick gid n r). now rewrite Hr.
Qed.

Lemma has_nickname_dropped (n : pystr) (l : list pystr) :
  existsb (fun x => PyStr.eqb n (_norm_str x)) (drop_nick n l) = false.
Proof.
  unfold drop_nick. induction l as [|x l IH]; auto. cbn [filter].
  destruct (PyStr.eqb (_norm_str x) n) eqn:E; cbn [negb]; auto.
  cbn [existsb]. now rewrite (eqb_sym n), E, IH.
Qed.

Lemma remove_nick_clears (gid n : pystr) (l : list MemberRecord) :
  forallb (fun r => negb (matches_nick gid n r)) (map (remove_nick gid n) l)
  = true.
Proof.
  apply forallb_forall. intros r' Hin. apply in_map_iff in Hin.
  destruct Hin as [r [<- _]]. apply negb_true_iff.
  unfold remove_nick. fold (matches_nick gid n r).
  destruct (matches_nick gid n r) eqn:E; auto.
  unfold matches_nick, has_nickname, get_nickname. cbn [nickname].
  fold (get_nickname r). fold (drop_nick n (get_nickname r)).
  rewrite has_nickname_dropped. apply andb_false_r.
Qed.

Lemma find_all_by_nickname_none (gid n : pystr) (l : list MemberRecord)
    (i : nat) :
  forallb (fun r => negb (matches_nick gid n r)) l = true ->
  find_all_by_nickname_from i l n (Some gid) = [].
Proof.
  revert i. induction l as [|r l IH]; intros i; auto.
  cbn [forallb find_all_by_nickname_from]. intros H.
  apply andb_true_iff in H. destruct H as [Hr Hl].
  apply negb_true_iff in Hr. unfold matches_nick, in_group in Hr.
  unfold field_neqb. destruct (field_eqb (group_id r) gid); cbn [negb];
    [|now apply IH].
  cbn [andb] in Hr. rewrite Hr. now apply IH.
Qed.

(** X10: outside a group [/rm_nick] only says so; in a group it replies
    "not found" exactly when no record of the group holds the nickname, and
    otherwise with the number of records of the group that hold it.  The
    backing file is written only in the last case. *)
Theorem rm_nick_reply_cases (self : Plugin) (event : AstrMessageEvent)
    (nick : pystr) :
  let gid := or_empty (get_group_id event) in
  let n := _norm_str nick in
  let after := fst (cmd_rm_nick self event nick) in
  match snd (cmd_rm_nick self event nick) with
  | plain_result GroupOnly => gid = [] /\ after = _load self
  | plain_result NotFound =>
      gid <> []
      /\ forallb (fun r => negb (matches_nick gid n r)) (store self) = true
      /\ after = _load self
  | plain_result (NickRemoved n' k) =>
      gid <> [] /\ n' = n
      /\ k = length (filter (matches_nick gid n) (store self))
      /\ (0 < k)%nat
      /\ members_file after = Some (_members after)
  | _ => False
  end.
Proof.
  intros gid n after. unfold after.
  destruct (truthy gid) eqn:Eg.
  - rewrite cmd_rm_nick_run by assumption. cbv zeta. fold gid n.
    apply truthy_true in Eg.
    change (fun r => in_group gid r && has_nickname n r)
      with (matches_nick gid n).
    destruct (length (filter (matches_nick gid n) (store self)))
      as [|k] eqn:E; cbn [fst snd _members members_file].
    + assert (Hnone : forallb (fun r => negb (matches_nick gid n r))
                              (store self) = true)
        by now apply filter_none_forallb.
      split; auto. split; auto.
      rewrite (remove_nick_none _ _ _ Hnone). apply load_store.
    + repeat split; auto. lia.
  - unfold cmd_rm_nick. cbv zeta. fold gid. rewrite Eg. cbn [negb fst snd].
    split; auto. now apply truthy_false.
Qed.

(** X11: after [/rm_nick] in a group no record of the group holds the
    nickname: [_find_all_by_nickname] finds nothing, and running the command
    again replies "not found" and leaves the list and the file as they are. *)
Theorem rm_nick_twice (self : Plugin) (event : AstrMessageEvent)
    (nick : pystr) :
  let gid := or_empty (get_group_id event) in
  let n := _norm_str nick in
  let once := fst (cmd_rm_nick self event nick) in
  truthy gid = true ->
  forallb (fun r => negb (matches_nick gid n r)) (_members once) = true
  /\ _find_all_by_nickname once n (Some gid) = []
  /\ cmd_rm_nick once event nick = (once, plain_result NotFound).
Proof.
  intros gid n once Hgid.
  assert (Honce : _members once = map (remove_nick gid n) (store self)
                  /\ store once = _members once
                  /\ _load once = once).
  { unfold once. rewrite cmd_rm_nick_run by assumption. cbv zeta.
    fold gid n.
    change (fun r => in_group gid r && has_nickname n r)
      with (matches_nick gid n).
    destruct (length _) eqn:E; cbn [fst _members]; [|now repeat split].
    split; auto.
    assert (Hsame : map (remove_nick gid n) (store self) = store self).
    { apply remove_nick_none. now apply filter_none_forallb. }
    rewrite Hsame. rewrite load_store. unfold store.
    now rewrite load_idem. }
  destruct Honce as [Hmem [Hstore Hload]].
  assert (Hclear : forallb (fun r => negb (matches_nick gid n r))
                           (_members once) = true)
    by (rewrite Hmem; apply remove_nick_clears).
  split; [exact Hclear|]. split.
  - unfold _find_all_by_nickname. now apply find_all_by_nickname_none.
  - rewrite cmd_rm_nick_run by assumption. cbv zeta. fold gid n.
    rewrite Hstore.
    change (fun r => in_group gid r && has_nickname n r)
      with (matches_nick gid n).
    rewrite (proj2 (filter_none_forallb _ _) Hclear).
    rewrite (remove_nick_none _ _ _ Hclear).
    rewrite <- Hstore, load_store. now rewrite Hload.
Qed.

Lemma rm_nick_twice_witness :
  let event := Ex.text_event "/rm_nick cat" Ex.G in
  let once := fst (cmd_rm_nick (Ex.loaded Ex.cat_dog) event (py "cat")) in
  cmd_rm_nick once event (py "cat") = (once, plain_result NotFound).
Proof.
  intros event once.
  refine (proj2 (proj2 (@rm_nick_twice (Ex.loaded Ex.cat_dog) event
                          (py "cat") _))).
  reflexivity.
Defined.

(** X12: after [/rm_member] in a group no record of the group holds the
    nickname, and running the command again replies "not found" and leaves
    the list and the file as they are. *)
Theorem rm_member_twice (self : Plugin) (event : AstrMessageEvent)
    (nick : pystr) :
  let gid := or_empty (get_group_id event) in
  let n := _norm_str nick in
  let once := fst (cmd_rm_member self event nick) in
  truthy gid = true ->
  forallb (fun r => negb (matches_nick gid n r)) (_members once) = true
  /\ _find_all_by_nickname once n (Some gid) = []
  /\ cmd_rm_member once event nick = (once, plain_result NotFound).
Proof.
  intros gid n once Hgid.
  assert (Honce : _members once
                  = filter (fun r => negb (matches_nick gid n r)) (store self)
                  /\ store once = _members once
                  /\ _load once = once).
  { unfold once. rewrite cmd_rm_member_run by assumption. cbv zeta.
    fold gid n.
    destruct (length _) eqn:E; cbn [fst _members]; [|now repeat split].
    fold (store self). rewrite (filter_none_all _ _ E).
    unfold store. now rewrite load_idem. }
  destruct Honce as [Hmem [Hstore Hload]].
  assert (Hclear : forallb (fun r => negb (matches_nick gid n r))
                           (_members once) = true).
  { rewrite Hmem. apply forallb_forall. intros r Hr.
    now apply filter_In in Hr. }
  split; [exact Hclear|]. split.
  - unfold _find_all_by_nickname. now apply find_all_by_nickname_none.
  - rewrite cmd_rm_member_run by assumption. cbv zeta. fold gid n.
    rewrite Hstore.
    rewrite (proj2 (filter_none_forallb _ _) Hclear). now rewrite Hload.
Qed.

Lemma rm_member_twice_witness :
  let event := Ex.text_event "/rm_member cat" Ex.G in
  let once := fst (cmd_rm_member (Ex.loaded Ex.cat_dog) event (py "cat")) in
  cmd_rm_member once event (py "cat") = (once, plain_result NotFound).
Proof.
  intros event once.
  refine (proj2 (proj2 (@rm_member_twice (Ex.loaded Ex.cat_dog) event
                          (py "cat") _))).
  reflexivity.
Defined.

(** ** The state the commands leave *)

Lemma cmd_member_after (self : Plugin) (event : AstrMessageEvent)
    (nick : pystr) :
  fst (cmd_member self event nick) = _load self
  \/ exists s m,
       truthy s = true /\ truthy (_norm_str nick) = true
       /\ m = upsert (store self) s (or_empty (get_group_id event))
                     (_norm_str nick)
       /\ fst (cmd_member self event nick) = mkPlugin m (Some m).
Proof.
  unfold cmd_member. cbv zeta.
  destruct (truthy (or_empty (get_group_id event))); cbn [negb fst]; auto.
  destruct (_first_at_sid event) as [s|]; cbn [fst]; auto.
  destruct (truthy s) eqn:Es; cbn [negb fst]; auto.
  destruct (truthy (_norm_str nick)) eqn:En; cbn [negb fst]; auto.
  right. eexists s, _. repeat split; auto.
Qed.

Lemma cmd_rm_nick_after (self : Plugin) (event : AstrMessageEvent)
    (nick : pystr) :
  fst (cmd_rm_nick self event nick) = _load self
  \/ exists m,
       m = map (remove_nick (or_empty (get_group_id event)) (_norm_str nick))
               (store self)
       /\ fst (cmd_rm_nick self event nick) = mkPlugin m (Some m).
Proof.
  destruct (truthy (or_empty (get_group_id event))) eqn:Eg.
  - rewrite cmd_rm_nick_run by assumption. cbv zeta.
    change (fun r => in_group (or_empty (get_group_id event)) r
                     && has_nickname (_norm_str nick) r)
      with (matches_nick (or_empty (get_group_id event)) (_norm_str nick)).
    destruct (length _) eqn:E; cbn [fst].
    + left. rewrite remove_nick_none by now apply filter_none_forallb.
      apply load_store.
    + right. eexists. split; reflexivity.
  - left. unfold cmd_rm_nick. cbv zeta. now rewrite Eg.
Qed.

Lemma cmd_rm_member_after (self : Plugin) (event : AstrMessageEvent)
    (nick : pystr) :
  fst (cmd_rm_member self event nick) = _load self
  \/ exists m,
       m = filter (fun r => negb (matches_nick (or_empty (get_group_id event))
                                               (_norm_str nick) r))
                  (store self)
       /\ fst (cmd_rm_member self event nick) = mkPlugin m (Some m).
Proof.
  destruct (truthy (or_empty (get_group_id event))) eqn:Eg.
  - rewrite cmd_rm_member_run by assumption. cbv zeta.
    destruct (length _); cbn [fst]; auto.
    right. eexists. split; reflexivity.
  - left. unfold cmd_rm_member. cbv zeta. now rewrite Eg.
Qed.


(** ** Invariants of the store *)

Lemma owned_identity (s gid : pystr) (r : MemberRecord) :
  identity r = (Some s, Some gid) -> owned s gid r = true.
Proof.
  unfold identity, owned, field_eqb. intros [= -> ->].
  now rewrite !eqb_refl.
Qed.

Lemma upsert_unique (s gid n : pystr) (l : list MemberRecord) :
  unique_members l -> unique_members (upsert l s gid n).
Proof.
  unfold unique_members, upsert. intros Hnd.
  pose proof (find_by_sid_group_from_spec s gid l 0) as Hfind.
  destruct (find_by_sid_group_from 0 l s gid) as [[i r]|].
  - now rewrite update_at_identity by apply add_nickname_identity.
  - rewrite map_app. apply NoDup_app; auto.
    + constructor; [simpl; tauto | constructor].
    + intros p Hp [<-|[]]. apply in_map_iff in Hp.
      destruct Hp as [r [Hid Hr]]. apply owned_identity in Hid.
      rewrite forallb_forall in Hfind. specialize (Hfind _ Hr).
      rewrite Hid in Hfind. discriminate.
Qed.

Lemma remove_nick_unique (gid n : pystr) (l : list MemberRecord) :
  unique_members l -> unique_members (map (remove_nick gid n) l).
Proof.
  unfold unique_members. rewrite map_map.
  now rewrite (map_ext _ identity (remove_nick_identity gid n)).
Qed.

Lemma filter_unique (f : MemberRecord -> bool) (l : list MemberRecord) :
  unique_members l -> unique_members (filter f l).
Proof.
  unfold unique_members. induction l as [|r l IH]; auto.
  cbn [map filter]. intros H. inversion H as [|? ? Hr Hl]; subst.
  destruct (f r); auto. cbn [map]. constructor; auto.
  intros Hin. apply Hr. apply in_map_iff in Hin.
  destruct Hin as [r' [Hid Hr']]. apply filter_In in Hr'.
  apply in_map_iff. exists r'. tauto.
Qed.

(** X14: the commands keep the store free of two records with the same sid
    and group_id: if the loaded store has at most one record per
    (sid, group_id), so has the list each of [/member], [/rm_nick] and
    [/rm_member] leaves. *)
Theorem commands_keep_unique (self : Plugin) (event : AstrMessageEvent)
    (nick : pystr) :
  unique_members (store self) ->
  unique_members (_members (fst (cmd_member self event nick)))
  /\ unique_members (_members (fst (cmd_rm_nick self event nick)))
  /\ unique_members (_members (fst (cmd_rm_member self event nick))).
Proof.
  intros Hu. split; [|split].
  - destruct (cmd_member_after self event nick)
      as [->|[s [m [_ [_ [-> ->]]]]]]; auto.
    now apply upsert_unique.
  - destruct (cmd_rm_nick_after self event nick) as [->|[m [-> ->]]]; auto.
    now apply remove_nick_unique.
  - destruct (cmd_rm_member_after self event nick) as [->|[m [-> ->]]]; auto.
    now apply filter_unique.
Qed.

Lemma commands_keep_unique_witness :
  let event := mkEvent [Plain (py "/member pup"); At Ex.C] None (Some Ex.G) in
  unique_members
    (_members (fst (cmd_member (Ex.loaded Ex.cat_dog) event (py "pup")))).
Proof.
  intros event.
  refine (proj1 (@commands_keep_unique (Ex.loaded Ex.cat_dog) event
                   (py "pup") _)).
  unfold unique_members. cbn.
  repeat constructor; simpl; intuition discriminate.
Defined.

Lemma tidy_trimmed (nick : pystr) :
  truthy (_norm_str nick) = true -> tidy (_norm_str nick).
Proof.
  intros H. split; [apply strip_idem | now apply truthy_true].
Qed.

Lemma update_at_Forall (P : MemberRecord -> Prop)
    (f : MemberRecord -> MemberRecord) (l : list MemberRecord) (i : nat) :
  (forall r, P r -> P (f r)) -> Forall P l -> Forall P (update_at i f l).
Proof.
  intros Hf H. revert i. induction H as [|r l Hr Hl IH]; intros [|i];
    simpl; constructor; auto.
Qed.

Lemma upsert_tidy (s gid n : pystr) (l : list MemberRecord) :
  tidy n -> tidy_members l -> tidy_members (upsert l s gid n).
Proof.
  unfold tidy_members, upsert. intros Hn Hl.
  destruct (find_by_sid_group_from 0 l s gid) as [[i r]|].
  - apply update_at_Forall; auto. intros r' Hr'. rewrite add_nickname_eq.
    destruct (forallb _ _); cbn [get_nickname nickname]; auto.
    apply Forall_app. split; auto.
  - apply Forall_app. split; auto. constructor; [|constructor].
    cbn [get_nickname nickname]. constructor; [exact Hn | constructor].
Qed.

Lemma remove_nick_tidy (gid n : pystr) (l : list MemberRecord) :
  tidy_members l -> tidy_members (map (remove_nick gid n) l).
Proof.
  unfold tidy_members. intros H. apply Forall_map.
  eapply Forall_impl; [|exact H]. intros r Hr. unfold remove_nick.
  destruct (_ && _); auto. cbn [get_nickname nickname].
  rewrite Forall_forall in *. intros x Hx. apply filter_In in Hx.
  apply Hr. tauto.
Qed.

Lemma filter_tidy (f : MemberRecord -> bool) (l : list MemberRecord) :
  tidy_members l -> tidy_members (filter f l).
Proof.
  unfold tidy_members. rewrite !Forall_forall. intros H r Hr.
  apply filter_In in Hr. apply H. tauto.
Qed.

(** X15: the commands keep the stored nicknames trimmed and non-empty: if
    every nickname of the loaded store is, so is every nickname of the list
    each of [/member], [/rm_nick] and [/rm_member] leaves. *)
Theorem commands_keep_tidy (self : Plugin) (event : AstrMessageEvent)
    (nick : pystr) :
  tidy_members (store self) ->
  tidy_members (_members (fst (cmd_member self event nick)))
  /\ tidy_members (_members (fst (cmd_rm_nick self event nick)))
  /\ tidy_members (_members (fst (cmd_rm_member self event nick))).
Proof.
  intros Ht. split; [|split].
  - destruct (cmd_member_after self event nick)
      as [->|[s [m [_ [Hn [-> ->]]]]]]; auto.
    apply upsert_tidy; auto. now apply tidy_trimmed.
  - destruct (cmd_rm_nick_after self event nick) as [->|[m [-> ->]]]; auto.
    now apply remove_nick_tidy.
  - destruct (cmd_rm_member_after self event nick) as [->|[m [-> ->]]]; auto.
    now apply filter_tidy.
Qed.

Lemma commands_keep_tidy_witness :
  let event := mkEvent [Plain (py "/member  pup "); At Ex.C] None
                       (Some Ex.G) in
  tidy_members
    (_members (fst (cmd_member (Ex.loaded Ex.cat_dog) event (py "  pup ")))).
Proof.
  intros event.
  refine (proj1 (@commands_keep_tidy (Ex.loaded Ex.cat_dog) event
                   (py "  pup ") _)).
  unfold tidy_members, tidy. cbn.
  repeat constructor; discriminate.
Defined.

(** * Further properties of the hook *)

(** ** Registering a nickname, then using it *)

Lemma contains_skipn (sub s : pystr) :
  contains sub s = true ->
  exists n, (n <= length s)%nat /\ startswith sub (skipn n s) = true.
Proof.
  induction s as [|c s IH]; cbn [contains].
  - intros H. now exists 0%nat.
  - intros H. apply orb_true_iff in H. destruct H as [H|H].
    + exists 0%nat. split; [lia | exact H].
    + destruct (IH H) as [n [Hn Hs]]. exists (S n). split; [simpl; lia|].
      exact Hs.
Qed.

(** [sub in s] implies that [s.find(sub)] succeeds. *)
Lemma contains_find (sub s : pystr) :
  contains sub s = true -> find s sub <> (-1)%Z.
Proof.
  intros H. destruct (contains_skipn _ _ H) as [n [Hn Hs]]. unfold find.
  destruct (find_from_spec s sub 0) as [[_ Hno]|[m [_ [Hm _]]]].
  - rewrite (Hno n Hn) in Hs. discriminate.
  - rewrite Hm. lia.
Qed.

Lemma count_nick_entry (n : pystr) (r : MemberRecord) :
  (1 <= count_nick n r)%nat ->
  exists x, In x (get_nickname r) /\ _norm_str x = n.
Proof.
  unfold count_nick. intros H.
  destruct (filter _ (get_nickname r)) as [|x l] eqn:E; [simpl in H; lia|].
  assert (Hx : In x (filter (fun x => PyStr.eqb (_norm_str x) n)
                            (get_nickname r))) by (rewrite E; now left).
  apply filter_In in Hx. destruct Hx as [Hx He]. apply eqb_eq in He. eauto.
Qed.

Lemma owned_live (s gid : pystr) (r : MemberRecord) :
  owned s gid r = true -> truthy s = true -> live_sid gid r = Some s.
Proof.
  unfold owned, live_sid, field_eqb. intros H Hs.
  apply andb_true_iff in H. destruct H as [H1 H2].
  destruct (sid r) as [s'|]; [|discriminate]. apply eqb_eq in H1. subst s'.
  destruct (group_id r) as [g|]; [|discriminate]. now rewrite H2, Hs.
Qed.

(** A record of [s] in the group with an entry whose trimmed form occurs in
    the text puts [s] in the result of the lookup, in either branch. *)
Lemma lookup_finds (gid msg s : pystr) (members : list MemberRecord)
    (r : MemberRecord) (x : pystr) :
  In r members -> live_sid gid r = Some s ->
  In x (get_nickname r) -> _norm_str x <> [] ->
  contains (_norm_str x) msg = true ->
  In s (lookup gid msg members).
Proof.
  intros Hr Hlive Hx Hne Hc. unfold lookup.
  destruct (existsb _ triggers).
  - rewrite broadcast_sids_live. apply in_flat_map. exists r.
    split; auto. rewrite Hlive. now left.
  - apply order_sids_in. unfold matched_records. apply in_flat_map.
    exists r. split; auto. rewrite Hlive.
    assert (Hhit : In (find msg (_norm_str x)) (hits msg r)).
    { unfold hits. apply in_flat_map. exists x. split; auto.
      unfold hit. cbv zeta. apply truthy_true in Hne. rewrite Hne.
      cbn [negb]. apply contains_find in Hc.
      destruct (Z.eqb_spec (find msg (_norm_str x)) (-1)); [congruence|].
      now left. }
    destruct (hits msg r); [contradiction | now left].
Qed.

(** X16: once [/member] has recorded a nickname for member [s] in a group,
    a message of that group that is not a command and whose case-folded
    text contains the trimmed nickname makes the hook emit a chain that
    mentions [s]. *)
Theorem member_then_mentioned (lower : pystr -> pystr) (self : Plugin)
    (event : AstrMessageEvent) (nick s : pystr) (message : AstrMessageEvent) :
  let gid := or_empty (get_group_id event) in
  let n := _norm_str nick in
  let msg := lower (_strip_at message) in
  truthy gid = true ->
  _first_at_sid event = Some s ->
  truthy s = true ->
  truthy n = true ->
  or_empty (get_group_id message) = gid ->
  startswith (py "/") msg = false ->
  contains n msg = true ->
  exists chain,
    snd (on_group_message lower (fst (cmd_member self event nick)) message)
    = chain_result chain
    /\ In s (mentions chain).
Proof.
  intros gid n msg Hgid Hat Hs Hn Hsame Hcmd Hc.
  assert (Htrim : _norm_str n = n) by apply strip_idem.
  rewrite (@cmd_member_run self event nick s) by assumption. cbv zeta.
  fold gid n. cbn [fst].
  destruct (upsert_found s gid Htrim (store self))
    as [i [r [Hfind [_ [Hcount _]]]]].
  destruct (@find_by_sid_group_nth _ _ _ _ _ _ Hfind) as [_ [Hnth Hown]].
  destruct (count_nick_entry _ _ Hcount) as [x [Hx Hxn]].
  assert (Hin : In s (lookup gid msg (upsert (store self) s gid n))).
  { apply (@lookup_finds gid msg s _ r x); auto.
    - eapply nth_error_In; eauto.
    - now apply owned_live.
    - rewrite Hxn. now apply truthy_true.
    - now rewrite Hxn. }
  rewrite on_group_message_eq. cbv zeta. fold msg. rewrite Hsame, Hcmd, Hgid.
  cbn [negb]. unfold store at 1, _load. cbn [members_file _members].
  destruct (lookup gid msg (upsert (store self) s gid n)) as [|s0 sids] eqn:E;
    [contradiction|].
  eexists. split; [reflexivity|].
  rewrite mentions_rewritten by discriminate. exact Hin.
Qed.

Lemma member_then_mentioned_witness :
  let event := mkEvent [Plain (py "/member Kitty"); At Ex.C] None
                       (Some Ex.G) in
  let message := Ex.text_event "here kitty kitty" Ex.G in
  exists chain,
    snd (on_group_message lower_ascii
           (fst (cmd_member (Ex.loaded Ex.cat_dog) event (py "kitty")))
           message)
    = chain_result chain
    /\ In Ex.C (mentions chain).
Proof.
  intros event message.
  refine (@member_then_mentioned lower_ascii (Ex.loaded Ex.cat_dog) event
            (py "kitty") Ex.C message _ _ _ _ _ _ _); reflexivity.
Defined.

(** ** Silence *)

Lemma skipn_contains (sub s : pystr) (n : nat) :
  startswith sub (skipn n s) = true -> contains sub s = true.
Proof.
  revert n. induction s as [|c s IH]; intros n.
  - now rewrite skipn_nil.
  - destruct n as [|n]; cbn [skipn contains]; intros H.
    + now rewrite H.
    + rewrite (IH n H). apply orb_true_r.
Qed.

(** [s.find(sub)] succeeds only if [sub in s]. *)
Lemma find_contains (sub s : pystr) :
  find s sub <> (-1)%Z -> contains sub s = true.
Proof.
  unfold find. intros H.
  destruct (find_from_spec s sub 0) as [[Hno _]|[n [_ [_ [Hs _]]]]];
    [congruence|].
  eapply skipn_contains; eauto.
Qed.

Lemma hit_contains (msg raw : pystr) (i : Z) :
  hit msg raw = Some i ->
  _norm_str raw <> [] /\ contains (_norm_str raw) msg = true.
Proof.
  unfold hit. cbv zeta. destruct (truthy (_norm_str raw)) eqn:E;
    [|discriminate]. cbn [negb].
  destruct (Z.eqb_spec (find msg (_norm_str raw)) (-1)); [discriminate|].
  intros _. split; [now apply truthy_true | now apply find_contains].
Qed.

Lemma live_sid_in_group (gid : pystr) (rec : MemberRecord) (s : pystr) :
  live_sid gid rec = Some s ->
  in_group gid rec = true /\ sid rec = Some s /\ s <> [].
Proof.
  unfold live_sid, in_group. destruct (field_eqb _ _); [|discriminate].
  destruct (sid rec) as [s'|]; [|discriminate].
  destruct (truthy s') eqn:E; [|discriminate]. intros [= <-].
  repeat split. now apply truthy_true.
Qed.

(** A matched sid comes from a record of the group with an entry that
    occurs in the text. *)
Lemma matched_records_origin (gid msg s : pystr)
    (members : list MemberRecord) :
  In s (matched_records gid msg members) ->
  exists rec raw,
    In rec members /\ live_sid gid rec = Some s
    /\ In raw (get_nickname rec) /\ _norm_str raw <> []
    /\ contains (_norm_str raw) msg = true.
Proof.
  unfold matched_records. rewrite in_flat_map. intros [rec [Hrec H]].
  destruct (live_sid gid rec) as [s'|] eqn:El; [|contradiction].
  destruct (hits msg rec) as [|i l] eqn:Eh; [contradiction|].
  destruct H as [<-|[]].
  assert (Hi : In i (hits msg rec)) by (rewrite Eh; now left).
  unfold hits in Hi. apply in_flat_map in Hi. destruct Hi as [raw [Hraw Hi]].
  destruct (hit msg raw) as [j|] eqn:Ehit; [|contradiction].
  apply hit_contains in Ehit. exists rec, raw. tauto.
Qed.

(** X17: when the case-folded text holds no trigger and no nickname of a
    record of the group, other than entries that trim to the empty string,
    occurs in it, the hook emits nothing. *)
Theorem hook_silent_without_match (lower : pystr -> pystr) (self : Plugin)
    (event : AstrMessageEvent) :
  let msg := lower (_strip_at event) in
  let gid := or_empty (get_group_id event) in
  existsb (fun trigger => contains trigger msg) triggers = false ->
  (forall rec raw,
      In rec (store self) -> in_group gid rec = true ->
      In raw (get_nickname rec) ->
      _norm_str raw = [] \/ contains (_norm_str raw) msg = false) ->
  snd (on_group_message lower self event) = Nothing.
Proof.
  intros msg gid Htrig Hnone. rewrite on_group_message_eq. cbv zeta.
  fold msg gid. destruct (startswith _ msg); auto.
  destruct (negb (truthy gid)); auto.
  destruct (lookup gid msg (store self)) as [|s sids] eqn:E; auto.
  exfalso. assert (Hs : In s (lookup gid msg (store self)))
    by (rewrite E; now left).
  unfold lookup in Hs. rewrite Htrig in Hs. apply order_sids_in in Hs.
  destruct (matched_records_origin _ _ _ _ Hs)
    as [rec [raw [Hrec [Hlive [Hraw [Hne Hc]]]]]].
  apply live_sid_in_group in Hlive. destruct Hlive as [Hg _].
  destruct (Hnone rec raw Hrec Hg Hraw); congruence.
Qed.

Lemma hook_silent_without_match_witness :
  snd (on_group_message lower_ascii (Ex.loaded Ex.cat_dog)
         (Ex.text_event "nothing to see" Ex.G)) = Nothing.
Proof.
  refine (@hook_silent_without_match lower_ascii (Ex.loaded Ex.cat_dog)
            (Ex.text_event "nothing to see" Ex.G) _ _); [reflexivity|].
  intros rec raw Hrec _ Hraw. right.
  destruct Hrec as [<-|[<-|[]]]; destruct Hraw as [<-|[]]; reflexivity.
Defined.

(** ** What the hook does and does not do *)

Lemma at_chain_length (sids : list pystr) :
  length (at_chain sids) = (2 * length sids)%nat.
Proof. induction sids as [|s sids IH]; simpl in *; lia. Qed.

(** X18: the hook never writes the backing file, never replies with plain
    text and never fails on the empty chain: it leaves the plugin as it was
    or as loaded, and yields nothing or one chain.  A chain it yields is a
    mention and a no-break space for each sid but the last, then the last
    mention and the text segment: twice as many segments as mentions. *)
Theorem hook_effects (lower : pystr -> pystr) (self : Plugin)
    (event : AstrMessageEvent) :
  let msg := lower (_strip_at event) in
  let after := fst (on_group_message lower self event) in
  members_file after = members_file self
  /\ (after = self \/ after = _load self)
  /\ match snd (on_group_message lower self event) with
     | Nothing => True
     | chain_result chain =>
         (exists init l,
             mentions chain = init ++ [l]
             /\ chain = at_chain init
                        ++ [At l; Plain (zwsp_newline ++ msg)])
         /\ length chain = (2 * length (mentions chain))%nat
     | _ => False
     end.
Proof.
  intros msg after. unfold after. rewrite on_group_message_eq. cbv zeta.
  fold msg. destruct (startswith _ msg); cbn [fst snd]; auto.
  destruct (negb _); cbn [fst snd]; [rewrite load_file; auto|].
  destruct (lookup _ msg (store self)) as [|s sids] eqn:E; cbn [fst snd];
    rewrite load_file; repeat split; auto.
  - destruct (@exists_last _ (s :: sids)) as [init [l Hl]]; [discriminate|].
    exists init, l. rewrite Hl, rewritten_snoc, mentions_app,
      mentions_at_chain. auto.
  - rewrite mentions_rewritten by discriminate.
    destruct (@exists_last _ (s :: sids)) as [init [l Hl]]; [discriminate|].
    rewrite Hl, rewritten_snoc, !length_app, at_chain_length. simpl. lia.
Qed.

(** ** Who can be mentioned *)

Lemma order_sids_nodup (gid msg : pystr) (members : list MemberRecord) :
  NoDup (order_sids (first_pos gid msg members)).
Proof.
  unfold order_sids. eapply Permutation_NoDup.
  - apply Permutation_map. symmetry. apply sorted_by_value_perm.
  - rewrite first_pos_keys. apply first_seen_nodup.
Qed.

Lemma lookup_incl (gid msg : pystr) (members : list MemberRecord) :
  incl (lookup gid msg members) (broadcast_sids gid members)
  /\ (length (lookup gid msg members)
      <= length (broadcast_sids gid members))%nat.
Proof.
  unfold lookup. destruct (existsb _ triggers).
  - split; [apply incl_refl | lia].
  - assert (Hincl : incl (order_sids (first_pos gid msg members))
                         (broadcast_sids gid members)).
    { intros s Hs. apply order_sids_in in Hs.
      now apply matched_records_incl in Hs. }
    split; auto. apply NoDup_incl_length; auto. apply order_sids_nodup.
Qed.

(** X19: every member a chain of the hook mentions is the sid of a record
    of the message's group, and the chain has at most as many mentions as
    the group has records with a non-empty sid. *)
Theorem mentions_from_group (lower : pystr -> pystr) (self : Plugin)
    (event : AstrMessageEvent) (chain : list Comp) :
  let gid := or_empty (get_group_id event) in
  snd (on_group_message lower self event) = chain_result chain ->
  (forall s, In s (mentions chain) ->
             exists rec, In rec (store self)
                         /\ group_id rec = Some gid /\ sid rec = Some s)
  /\ (length (mentions chain)
      <= length (filter (fun rec => in_group gid rec && has_sid rec)
                        (store self)))%nat.
Proof.
  intros gid Hemit. rewrite on_group_message_eq in Hemit. cbv zeta in Hemit.
  fold gid in Hemit. destruct (startswith _ _); [discriminate|].
  destruct (negb _); [discriminate|].
  destruct (lookup gid _ (store self)) as [|s0 sids] eqn:E; [discriminate|].
  cbn [snd] in Hemit. injection Hemit as <-.
  rewrite mentions_rewritten by discriminate. rewrite <- E.
  destruct (lookup_incl gid (lower (_strip_at event)) (store self))
    as [Hincl Hlen].
  split.
  - intros s Hs. apply Hincl in Hs. rewrite broadcast_sids_live in Hs.
    apply in_flat_map in Hs. destruct Hs as [rec [Hrec Hs]].
    destruct (live_sid gid rec) as [s'|] eqn:El; [|contradiction].
    destruct Hs as [<-|[]]. exists rec. split; auto.
    apply live_sid_in_group in El. destruct El as [Hg [Hsid _]].
    split; auto. unfold in_group, field_eqb in Hg.
    destruct (group_id rec) as [g|]; [|discriminate].
    apply eqb_eq in Hg. now subst.
  - eapply Nat.le_trans; [exact Hlen|].
    rewrite <- (length_map sid), <- broadcast_sids_selected, length_map.
    lia.
Qed.

Lemma mentions_from_group_witness :
  (length (mentions [At Ex.A; Plain (zwsp_newline ++ py "a cat")]) <= 2)%nat.
Proof.
  refine (proj2 (@mentions_from_group lower_ascii (Ex.loaded Ex.cat_dog)
                   (Ex.text_event "a cat" Ex.G) _ _)).
  reflexivity.
Defined.

(** ** Nicknames with capital letters, for any case folding *)

Lemma contains_incl (sub s : pystr) (c : N) :
  contains sub s = true -> In c sub -> In c s.
Proof.
  intros H Hc. destruct (contains_skipn _ _ H) as [n [_ Hs]].
  eapply skipn_incl, startswith_incl; eauto.
Qed.

(** X20: a stored nickname that has an ASCII capital letter in its trimmed
    form is never matched: the text is case-folded and the nickname is
    not, so when every nickname of the group has one and the text holds no
    trigger, the hook emits nothing.  [str.lower] returns no ASCII capital
    letter. *)
Theorem capital_nicknames_never_mentioned (lower : pystr -> pystr)
    (self : Plugin) (event : AstrMessageEvent) :
  let msg := lower (_strip_at event) in
  let gid := or_empty (get_group_id event) in
  (forall t c, In c (lower t) -> is_upper c = false) ->
  existsb (fun trigger => contains trigger msg) triggers = false ->
  (forall rec raw,
      In rec (store self) -> in_group gid rec = true ->
      In raw (get_nickname rec) ->
      existsb is_upper (_norm_str raw) = true) ->
  snd (on_group_message lower self event) = Nothing.
Proof.
  intros msg gid Hlow Htrig Hcap. rewrite on_group_message_eq. cbv zeta.
  fold msg gid. destruct (startswith _ msg); auto.
  destruct (negb (truthy gid)); auto.
  destruct (lookup gid msg (store self)) as [|s sids] eqn:E; auto.
  exfalso. assert (Hs : In s (lookup gid msg (store self)))
    by (rewrite E; now left).
  unfold lookup in Hs. rewrite Htrig in Hs. apply order_sids_in in Hs.
  destruct (matched_records_origin _ _ _ _ Hs)
    as [rec [raw [Hrec [Hlive [Hraw [_ Hc]]]]]].
  apply live_sid_in_group in Hlive. destruct Hlive as [Hg _].
  specialize (Hcap rec raw Hrec Hg Hraw). apply existsb_exists in Hcap.
  destruct Hcap as [c [Hin Hup]].
  pose proof (contains_incl _ _ c Hc Hin) as Hmsg.
  apply Hlow in Hmsg. congruence.
Qed.

Lemma capital_nicknames_never_mentioned_witness :
  snd (on_group_message lower_ascii (Ex.loaded Ex.upper_cat)
         (Ex.text_event "my Cat and your cat" Ex.G)) = Nothing.
Proof.
  refine (@capital_nicknames_never_mentioned lower_ascii
            (Ex.loaded Ex.upper_cat)
            (Ex.text_event "my Cat and your cat" Ex.G) _ _ _).
  - intros t c. apply lower_ascii_no_upper.
  - reflexivity.
  - intros rec raw Hrec _ Hraw.
    destruct Hrec as [<-|[]]; destruct Hraw as [<-|[]]; reflexivity.
Defined.

(** ** A missing or unreadable backing file *)

(** X21: when [members.json] is missing or does not parse, every handler
    works on the empty store: the hook emits nothing, [/rm_nick] and
    [/rm_member] find nothing and leave the file as it is, and a successful
    [/member] writes a file that holds the one new record. *)
Theorem missing_file_is_empty_store (lower : pystr -> pystr) (self : Plugin)
    (event : AstrMessageEvent) (nick : pystr) :
  let gid := or_empty (get_group_id event) in
  members_file self = None ->
  snd (on_group_message lower self event) = Nothing
  /\ (snd (cmd_rm_nick self event nick) = plain_result GroupOnly
      \/ snd (cmd_rm_nick self event nick) = plain_result NotFound)
  /\ members_file (fst (cmd_rm_nick self event nick)) = None
  /\ (snd (cmd_rm_member self event nick) = plain_result GroupOnly
      \/ snd (cmd_rm_member self event nick) = plain_result NotFound)
  /\ members_file (fst (cmd_rm_member self event nick)) = None
  /\ (forall n s,
        snd (cmd_member self event nick) = plain_result (Recorded n s) ->
        fst (cmd_member self event nick)
        = mkPlugin [mkRecord (Some [n]) (Some s) (Some gid)]
                   (Some [mkRecord (Some [n]) (Some s) (Some gid)])).
Proof.
  intros gid Hfile.
  assert (Hstore : store self = [])
    by (unfold store, _load; now rewrite Hfile).
  assert (Hload : members_file (_load self) = None)
    by (now rewrite load_file).
  split; [|split; [|split; [|split; [|split]]]].
  - rewrite on_group_message_eq. cbv zeta. rewrite Hstore.
    destruct (startswith _ _); auto. destruct (negb _); auto.
    unfold lookup. now destruct (existsb _ triggers).
  - destruct (truthy gid) eqn:Eg.
    + right. rewrite cmd_rm_nick_run by assumption. cbv zeta.
      now rewrite Hstore.
    + left. unfold cmd_rm_nick. cbv zeta. fold gid. now rewrite Eg.
  - destruct (truthy gid) eqn:Eg.
    + rewrite cmd_rm_nick_run by assumption. cbv zeta.
      now rewrite Hstore.
    + unfold cmd_rm_nick. cbv zeta. fold gid. now rewrite Eg.
  - destruct (truthy gid) eqn:Eg.
    + right. rewrite cmd_rm_member_run by assumption. cbv zeta.
      now rewrite Hstore.
    + left. unfold cmd_rm_member. cbv zeta. fold gid. now rewrite Eg.
  - destruct (truthy gid) eqn:Eg.
    + rewrite cmd_rm_member_run by assumption. cbv zeta.
      now rewrite Hstore.
    + unfold cmd_rm_member. cbv zeta. fold gid. now rewrite Eg.
  - intros n s. unfold cmd_member. cbv zeta. fold gid.
    destruct (truthy gid); cbn [negb snd]; [|discriminate].
    destruct (_first_at_sid event) as [s'|]; cbn [snd]; [|discriminate].
    destruct (truthy s'); cbn [negb snd]; [|discriminate].
    destruct (truthy (_norm_str nick)); cbn [negb snd]; [|discriminate].
    intros [= <- <-]. cbn [fst]. unfold _find_by_sid_group.
    fold (store self). rewrite Hstore. reflexivity.
Qed.

Lemma missing_file_is_empty_store_witness :
  snd (on_group_message lower_ascii (mkPlugin Ex.cat_dog None)
         (Ex.text_event "a cat" Ex.G)) = Nothing.
Proof.
  refine (proj1 (@missing_file_is_empty_store lower_ascii
                   (mkPlugin Ex.cat_dog None) (Ex.text_event "a cat" Ex.G)
                   (py "cat") _)).
  reflexivity.
Defined.

(** ** Undoing [/member] *)

Lemma filter_all_kept (A : Type) (f : A -> bool) (l : list A) :
  forallb f l = true -> filter f l = l.
Proof.
  induction l as [|x l IH]; auto. cbn [forallb filter]. intros H.
  apply andb_true_iff in H. destruct H as [-> Hl]. now rewrite IH.
Qed.

(** X22: when member [s] has no record in the group and no record of the
    group holds the nickname, [/member] followed by [/rm_member] with the
    same nickname gives back the store as it was, while [/member] followed
    by [/rm_nick] leaves the store with one more record: the record of [s],
    with an empty nickname list. *)
Theorem member_then_removed (self : Plugin) (event : AstrMessageEvent)
    (nick s : pystr) :
  let gid := or_empty (get_group_id event) in
  let n := _norm_str nick in
  let recorded := fst (cmd_member self event nick) in
  truthy gid = true ->
  _first_at_sid event = Some s ->
  truthy s = true ->
  truthy n = true ->
  forallb (fun r => negb (owned s gid r)) (store self) = true ->
  forallb (fun r => negb (matches_nick gid n r)) (store self) = true ->
  cmd_rm_member recorded event nick
  = (mkPlugin (store self) (Some (store self)),
     plain_result (MembersRemoved 1))
  /\ cmd_rm_nick recorded event nick
     = (mkPlugin (store self ++ [mkRecord (Some []) (Some s) (Some gid)])
                 (Some (store self
                        ++ [mkRecord (Some []) (Some s) (Some gid)])),
        plain_result (NickRemoved n 1)).
Proof.
  intros gid n recorded Hgid Hat Hs Hn Hnew Hfree.
  assert (Htrim : _norm_str n = n) by apply strip_idem.
  set (new := mkRecord (Some [n]) (Some s) (Some gid)).
  assert (Hrec : recorded = mkPlugin (store self ++ [new])
                                     (Some (store self ++ [new]))).
  { unfold recorded. rewrite (@cmd_member_run self event nick s)
      by assumption. cbv zeta. fold gid n. cbn [fst]. unfold upsert.
    pose proof (find_by_sid_group_from_spec s gid (store self) 0) as Hfind.
    destruct (find_by_sid_group_from 0 (store self) s gid) as [[i r]|];
      [|reflexivity].
    exfalso. destruct Hfind as [_ [Hnth [Ho _]]].
    rewrite forallb_forall in Hnew. apply nth_error_In in Hnth.
    specialize (Hnew _ Hnth). rewrite Ho in Hnew. discriminate. }
  assert (Hstore : store recorded = store self ++ [new])
    by (rewrite Hrec; reflexivity).
  assert (Hmatch : matches_nick gid n new = true).
  { unfold matches_nick, in_group, has_nickname, new, field_eqb.
    cbn [group_id get_nickname nickname existsb].
    now rewrite Htrim, !eqb_refl. }
  assert (Hcount : length (filter (matches_nick gid n) (store self ++ [new]))
                   = 1%nat).
  { rewrite filter_app, length_app. cbn [filter]. rewrite Hmatch.
    rewrite (proj2 (filter_none_forallb (matches_nick gid n) (store self))
               Hfree). reflexivity. }
  split.
  - rewrite cmd_rm_member_run by assumption. cbv zeta. fold gid n.
    rewrite Hstore, Hcount, filter_app. cbn [filter]. rewrite Hmatch.
    cbn [negb]. rewrite app_nil_r.
    now rewrite (filter_all_kept _ _ Hfree).
  - rewrite cmd_rm_nick_run by assumption. cbv zeta. fold gid n.
    change (fun r => in_group gid r && has_nickname n r)
      with (matches_nick gid n).
    rewrite Hstore, Hcount, map_app.
    rewrite (remove_nick_none _ _ _ Hfree). cbn [map].
    assert (Hnew' : remove_nick gid n new
                    = mkRecord (Some []) (Some s) (Some gid)).
    { unfold remove_nick. fold (matches_nick gid n new). rewrite Hmatch.
      unfold new. cbn [get_nickname nickname sid group_id filter].
      now rewrite Htrim, eqb_refl. }
    now rewrite Hnew'.
Qed.

Lemma member_then_removed_witness :
  let event := mkEvent [Plain (py "/member pup"); At Ex.C] None (Some Ex.G) in
  let self := Ex.loaded Ex.cat_dog in
  cmd_rm_member (fst (cmd_member self event (py "pup"))) event (py "pup")
  = (mkPlugin Ex.cat_dog (Some Ex.cat_dog), plain_result (MembersRemoved 1)).
Proof.
  intros event self.
  refine (proj1 (@member_then_removed self event (py "pup") Ex.C
                   _ _ _ _ _ _)); reflexivity.
Defined.
